(** * Monte Carlo dice toolkit: Die, Game, Analyzer

    A shallow embedding of [montecarlo/montecarlo.py] and the properties of
    its three classes.

    Modelling conventions.
    - A Python float and a numpy [float64] are IEEE 754 binary64 numbers:
      [spec_float] at precision 53, every operation rounded to nearest, ties
      to even.  Division by zero gives an infinity or NaN, as numpy does (it
      warns, it does not raise).
    - A Python exception is a constructor of [exn]; a call that can raise
      returns a [result].
    - numpy's global [RandomState] is threaded explicitly through every call
      that draws from it; what the machine does with the size of an array is
      a parameter ([Machine]).
    - A pandas frame is its row labels, its column labels and its cells, row
      by row; a missing cell (NaN) is [None].
    - Faces are the elements of one type of scalars, taken up to Python's
      [==], with what Python's [<] and pandas' [isna] do on them
      ([PyScalar]).  A face that is NaN is one element of the type, as it is
      one value for [np.unique], for an index and for the keys of
      [value_counts]; where Python compares it with [==] and finds it equal
      to nothing, the definitions ask [isna].  The faces of one array have
      one dtype, numeric or string. *)

From Stdlib Require Import ZArith Lia String SpecFloat.
From stdpp Require Import base decidable option list sorting strings.

Local Open Scope Z_scope.
Local Open Scope list_scope.

(** ** Exceptions and results *)

Inductive exn : Type :=
| TypeError
| ValueError
| IndexError
| OverflowError
| MemoryError.

Inductive result (A : Type) : Type :=
| Ok (a : A)
| Raise (e : exn).

Arguments Ok {A} a.
Arguments Raise {A} e.

#[global] Instance exn_eq_dec : EqDecision exn.
Proof. solve_decision. Defined.

#[global] Instance result_eq_dec {A : Type} `{EqDecision A} :
  EqDecision (result A).
Proof. solve_decision. Defined.

#[global] Instance result_ret : MRet result := fun _ a => Ok a.
#[global] Instance result_bind : MBind result := fun _ _ f m =>
  match m with
  | Ok a => f a
  | Raise e => Raise e
  end.

(** [for x in xs: s = body x s], leaving at the first exception. *)
Fixpoint for_each {I S : Type} (xs : list I) (body : I → S → result S) (s : S)
  : result S :=
  match xs with
  | [] => Ok s
  | x :: xs' => s' ← body x s; for_each xs' body s'
  end.

(** [[f(x) for x in xs]], leaving at the first exception. *)
Fixpoint map_each {A B : Type} (f : A → result B) (xs : list A)
  : result (list B) :=
  match xs with
  | [] => Ok []
  | x :: xs' => y ← f x; ys ← map_each f xs'; Ok (y :: ys)
  end.

(** [range(n)]: empty when [n] is not positive. *)
Definition range (n : Z) : list Z := Z.of_nat <$> seq 0 (Z.to_nat n).

(** ** Floats *)

Definition float : Type := spec_float.

#[global] Instance float_eq_dec : EqDecision float.
Proof. solve_decision. Defined.

Definition prec : Z := 53.
Definition emax : Z := 1024.

Definition fadd : float → float → float := SFadd prec emax.
Definition fsub : float → float → float := SFsub prec emax.
Definition fdiv : float → float → float := SFdiv prec emax.
Definition fabs : float → float := SFabs.

(** [a < b]: false when either is NaN. *)
Definition flt (a b : float) : bool := SFltb a b.

Definition f_zero : float := S754_zero false.
Definition f_one : float := S754_finite false 4503599627370496 (-52).

(** The double nearest to an integer, an infinity when there is none. *)
Definition of_Z (z : Z) : float := binary_normalize prec emax z 0 false.

Definition f_isnan (x : float) : bool :=
  match x with S754_nan => true | _ => false end.

Definition f_iszero (x : float) : bool :=
  match x with S754_zero _ => true | _ => false end.

(** Neither an infinity nor NaN. *)
Definition f_isfinite (x : float) : bool :=
  match x with S754_zero _ | S754_finite _ _ _ => true | _ => false end.

(** The double [x] is the integer [z]. *)
Definition float_is_Z (x : float) (z : Z) : bool :=
  match x with
  | S754_zero _ => z =? 0
  | S754_finite s m e =>
      if 0 <=? e then cond_Zopp s (Zpos m * 2 ^ e) =? z
      else cond_Zopp s (Zpos m) =? z * 2 ^ (- e)
  | _ => false
  end.

(** ** Python values *)

(** The scalars that reach [change_weight] and [Game.show] as arguments. *)
Inductive pyval : Type :=
| PyInt (z : Z)
| PyFloat (x : float)
| PyStr (s : string)
| PyNone.

(** What Python and pandas do with the scalars of a type: [x < y], [None]
    where it raises [TypeError]; [nan < x] and [x < nan] for a float NaN,
    which is [False] on a number and raises on anything else; and
    [pd.isna(x)]. *)
Class PyScalar (face : Type) : Type := {
  py_lt : face → face → option bool;
  lt_nan : face → option bool;
  isna : face → bool
}.

(** ** numpy *)

(** [kahan_sum] of [numpy/random]: compensated summation from the first
    element on.  numpy reads the first element unchecked; for no element the
    sum is taken to be 0.0. *)
Definition kahan_step (st : float * float) (x : float) : float * float :=
  let '(sum, c) := st in
  let y := fsub x c in
  let t := fadd sum y in
  (t, fsub (fsub t sum) y).

Definition kahan_sum (p : list float) : float :=
  match p with
  | [] => f_zero
  | x :: p' => (fold_left kahan_step p' (x, f_zero)).1
  end.

(** [p.cumsum()] *)
Fixpoint cumsum_from (acc : float) (p : list float) : list float :=
  match p with
  | [] => []
  | x :: p' => let acc' := fadd acc x in acc' :: cumsum_from acc' p'
  end.

Definition cumsum (p : list float) : list float :=
  match p with
  | [] => []
  | x :: p' => x :: cumsum_from x p'
  end.

(** [cdf.searchsorted(key, side='right')]: the index of the first entry
    greater than [key], the length when there is none.  numpy finds it by
    bisection, which agrees with this scan on a sorted [cdf]. *)
Fixpoint searchsorted_right (cdf : list float) (key : float) : nat :=
  match cdf with
  | [] => 0%nat
  | c :: cdf' => if flt key c then 0%nat else S (searchsorted_right cdf' key)
  end.

(** The generator is the sequence of 53-bit integers it will produce and a
    cursor into it. *)
Record RandomState : Type := mkRandomState {
  rs_bits : nat → Z;
  rs_pos : nat
}.

(** One double of [random_sample]: [k / 2^53] with [0 <= k < 2^53], which
    is a double. *)
Definition random_double (rs : RandomState) : float * RandomState :=
  (binary_normalize prec emax (rs_bits rs (rs_pos rs) mod 2 ^ 53) (-53) false,
   mkRandomState (rs_bits rs) (S (rs_pos rs))).

Fixpoint random_doubles (n : nat) (rs : RandomState)
  : list float * RandomState :=
  match n with
  | O => ([], rs)
  | S n' =>
      let '(u, rs1) := random_double rs in
      let '(us, rs2) := random_doubles n' rs1 in
      (u :: us, rs2)
  end.

(** The machine numpy runs on: what becomes of an array of [size] doubles.
    [None] when it is allocated, the exception otherwise.  No machine makes
    an array of a negative size, or of a size that a C [intp] does not
    hold; below that, memory decides. *)
Class Machine : Type := {
  np_empty_error : Z → option exn;
  np_empty_negative : ∀ size, size < 0 → is_Some (np_empty_error size);
  np_empty_intp : ∀ size, 2 ^ 63 ≤ size → is_Some (np_empty_error size)
}.

(** [random_sample(size)] *)
Definition random_sample `{Machine} (size : Z) (rs : RandomState)
  : result (list float * RandomState) :=
  match np_empty_error size with
  | Some e => Raise e
  | None => Ok (random_doubles (Z.to_nat size) rs)
  end.

(** [np.sqrt(np.finfo(np.float64).eps)], that is [2^-26]. *)
Definition atol : float := S754_finite false 4503599627370496 (-78).

(** ** Python dicts and pandas frames *)

(** A dict keeps its keys in insertion order; [d[k] = v] replaces the value
    of a key that is present and appends one that is not. *)
Fixpoint dict_set {K V : Type} `{EqDecision K} (d : list (K * V)) (k : K)
    (v : V) : list (K * V) :=
  match d with
  | [] => [(k, v)]
  | (k', v') :: d' =>
      if decide (k' = k) then (k, v) :: d' else (k', v') :: dict_set d' k v
  end.

Fixpoint dict_get {K V : Type} `{EqDecision K} (d : list (K * V)) (k : K)
  : option V :=
  match d with
  | [] => None
  | (k', v) :: d' => if decide (k' = k) then Some v else dict_get d' k
  end.

(** The distinct elements of a list, each at its first occurrence: the keys
    of a dict or the elements of a set built by inserting them in turn. *)
Fixpoint unique {A : Type} `{EqDecision A} (l : list A) : list A :=
  match l with
  | [] => []
  | x :: l' => x :: filter (λ y, y ≠ x) (unique l')
  end.

(** Row and column labels: an integer, a string, or a (roll, die) pair of a
    two-level index. *)
Inductive label : Type :=
| LInt (i : Z)
| LStr (s : string)
| LPair (roll die : Z).

#[global] Instance label_eq_dec : EqDecision label.
Proof. solve_decision. Defined.

Record DataFrame (C V : Type) : Type := mkDataFrame {
  df_index : list label;
  df_columns : list C;
  df_values : list (list V)
}.

Arguments mkDataFrame {C V} _ _ _.
Arguments df_index {C V} _.
Arguments df_columns {C V} _.
Arguments df_values {C V} _.

(** [len(df)] and [len(df.columns)] *)
Definition df_len {C V : Type} (df : DataFrame C V) : nat :=
  length (df_index df).
Definition df_width {C V : Type} (df : DataFrame C V) : nat :=
  length (df_columns df).

(** [df[c] = series] for a new label [c] and a series on the index of [df]:
    one more column, one more cell in every row. *)
Definition add_column {C V : Type} (df : DataFrame C V) (c : C)
    (series : list V) : DataFrame C V :=
  mkDataFrame (df_index df) (df_columns df ++ [c])
    (zip_with (λ row x, row ++ [x]) (df_values df) series).

(** The order of a frequency table: larger counts first. *)
Definition more_frequent {A : Type} (a b : A * Z) : Prop := b.2 ≤ a.2.

#[global] Instance more_frequent_dec {A : Type} (a b : A * Z)
  : Decision (more_frequent a b) := Z.le_dec b.2 a.2.

(** [series.value_counts()]: every distinct value with the number of times
    it occurs, the most frequent first; among values of one frequency the
    order is not specified by pandas, and nothing is made of it. *)
Definition value_counts {A : Type} `{EqDecision A} (l : list A)
  : list (A * Z) :=
  merge_sort more_frequent
    ((λ k, (k, Z.of_nat (length (filter (λ x, x = k) l)))) <$> unique l).

(** [table['count'].sum()] *)
Definition count_sum {A : Type} (t : list (A * Z)) : Z :=
  foldr Z.add 0 (snd <$> t).

(** [sorted(xs)] for a comparison [lt] that may raise: a stable insertion
    sort, every element compared with those before it.  Python's sort makes
    other comparisons; it returns the same list wherever [lt] is a strict
    weak order on the elements, and like this one it raises as soon as a
    comparison does, which happens in both when the list holds elements of
    kinds that cannot be compared.  On a list that holds NaN, where [lt] is
    no order, the two can arrange the elements differently. *)
Fixpoint sorted_insert {A : Type} (lt : A → A → result bool) (x : A)
    (l : list A) : result (list A) :=
  match l with
  | [] => Ok [x]
  | y :: l' =>
      b ← lt x y;
      if b : bool then Ok (x :: y :: l')
      else l'' ← sorted_insert lt x l'; Ok (y :: l'')
  end.

Definition sorted {A : Type} (lt : A → A → result bool) (xs : list A)
  : result (list A) :=
  for_each xs (λ x acc, sorted_insert lt x acc) [].

(** Python's [sum(weights)] on an array of doubles: from [0], left to
    right. *)
Definition py_sum (ws : list float) : float := fold_left fadd ws f_zero.

Section Montecarlo.

Context {face : Type} `{EqDecision face} `{PyScalar face} `{Machine}.

(** [float(s)] on a string: [None] where Python raises [ValueError]. *)
Variable float_of_str : string → option float.

(** [np.random.choice(a, size=size, p=p, replace=True)] of the legacy
    [RandomState]: the checks on [a] and [p], then inversion of the
    cumulative distribution at [size] uniform doubles. *)
Definition choice (a : list face) (size : Z) (p : list float)
    (rs : RandomState) : result (list face * RandomState) :=
  if bool_decide (length a = 0%nat) && negb (size =? 0) then Raise ValueError
  else if negb (bool_decide (length p = length a)) then Raise ValueError
  else
    let p_sum := kahan_sum p in
    if f_isnan p_sum then Raise ValueError
    else if existsb (λ x, flt x f_zero) p then Raise ValueError
    else if flt atol (fabs (fsub p_sum f_one)) then Raise ValueError
    else
      let cdf := cumsum p in
      let cdf := (λ c, fdiv c (List.last cdf S754_nan)) <$> cdf in
      '(uniform_samples, rs') ← random_sample size rs;
      let idx := searchsorted_right cdf <$> uniform_samples in
      match mapM (λ i, a !! i) idx with
      | Some results => Ok (results, rs')
      | None => Raise IndexError
      end.

(** ** Die *)

(** The private frame [_df]: the faces are its index, in the order given,
    and ['weights'] is its only column. *)
Record Die : Type := mkDie {
  die_df : list (face * float)
}.

Definition die_faces (d : Die) : list face := fst <$> die_df d.
Definition die_weights (d : Die) : list float := snd <$> die_df d.

(** What a caller may pass as [faces]: an array of one dimension and of a
    numeric or string dtype, an array of no dimension ([np.array(5)]), an
    array of two dimensions by its rows (more dimensions fare alike), or
    something that is no array. *)
Inductive faces_arg : Type :=
| NdArray (a : list face)
| NdScalar (x : face)
| NdMatrix (rows : list (list face))
| NotNdArray (v : pyval).

(** [Die.__init__] (lines 13-38).  [len] raises [TypeError] on an array of
    no dimension; on one of two dimensions it counts the rows, where
    [np.unique] counts the distinct elements, and when the two agree pandas
    refuses the array as an index, with [ValueError]. *)
Definition Die_init (faces : faces_arg) : result Die :=
  match faces with
  | NotNdArray _ => Raise TypeError
  | NdScalar _ => Raise TypeError
  | NdMatrix rows =>
      if bool_decide (length rows ≠ length (unique (concat rows)))
      then Raise ValueError
      else Raise ValueError
  | NdArray a =>
      if bool_decide (length a ≠ length (unique a)) then Raise ValueError
      else Ok (mkDie ((λ f, (f, f_one)) <$> a))
  end.

(** [float(weight)]: an integer is rounded to the nearest double, and
    refused with [OverflowError] when it is too large for one. *)
Definition py_float (weight : pyval) : result float :=
  match weight with
  | PyInt z =>
      if f_isfinite (of_Z z) then Ok (of_Z z) else Raise OverflowError
  | PyFloat x => Ok x
  | PyStr s =>
      match float_of_str s with
      | Some x => Ok x
      | None => Raise ValueError
      end
  | PyNone => Raise TypeError
  end.

(** [df.loc[face, 'weights'] = weight] *)
Definition loc_set (df : list (face * float)) (f : face) (w : float)
  : list (face * float) :=
  (λ r, if decide (r.1 = f) then (r.1, w) else r) <$> df.

(** [df.loc[face, 'weights']] *)
Fixpoint loc_get (df : list (face * float)) (f : face) : option float :=
  match df with
  | [] => None
  | (f', w) :: df' => if decide (f' = f) then Some w else loc_get df' f
  end.

(** [Die.change_weight] (lines 40-65): the face is looked up first, then
    the weight is converted; [ValueError] and [TypeError] of [float] become
    [TypeError], anything else it raises is passed on. *)
Definition change_weight (self : Die) (f : face) (weight : pyval)
  : result Die :=
  if bool_decide (f ∉ die_faces self) then Raise IndexError
  else
    match py_float weight with
    | Raise ValueError | Raise TypeError => Raise TypeError
    | Raise e => Raise e
    | Ok w => Ok (mkDie (loc_set (die_df self) f w))
    end.

(** [Die.roll] (lines 67-88): the weights are divided by their sum and
    handed to [choice]; nothing is checked before. *)
Definition roll (self : Die) (n : Z) (rs : RandomState)
  : result (list face * RandomState) :=
  let faces := die_faces self in
  let weights := die_weights self in
  let total := py_sum weights in
  let probabilities := (λ w, fdiv w total) <$> weights in
  choice faces n probabilities rs.

(** [Die.show] (lines 90-98) returns a copy of the frame. *)
Definition Die_show (self : Die) : list (face * float) := die_df self.

(** ** Game *)

(** A value in a frame of outcomes: a face, or [None] for a cell that is
    missing. *)
Definition cell : Type := option face.

Definition outcomes : Type := DataFrame label cell.

(** [pd.DataFrame.from_dict(data, orient='index')] on a dict of dicts: the
    columns are the inner keys in the order they first appear, the index is
    the outer keys that have at least one entry, and an entry a row lacks is
    NaN.  With no entry at all the frame has neither rows nor columns. *)
Definition DataFrame_from_dict (data : list (Z * list (Z * face))) : outcomes :=
  let columns : list Z :=
    unique (concat ((λ r : Z * list (Z * face), fst <$> r.2) <$> data)) in
  let rows := filter (λ r : Z * list (Z * face), r.2 ≠ []) data in
  mkDataFrame (LInt <$> (fst <$> rows)) (LInt <$> columns)
    ((λ r : Z * list (Z * face), (λ c, dict_get r.2 c) <$> columns) <$> rows).

Record Game : Type := mkGame {
  game_dice : list Die;
  game_results : option outcomes
}.

(** [Game.__init__] (lines 108-115): no table yet. *)
Definition Game_init (dice : list Die) : Game := mkGame dice None.

(** The body of the inner loop: roll die [i] once and record its face. *)
Definition play_die (dice : list Die) (i : Z)
    (st : list (Z * face) * RandomState)
  : result (list (Z * face) * RandomState) :=
  let '(roll_results, rs) := st in
  match dice !! Z.to_nat i with
  | None => Raise IndexError
  | Some die =>
      '(r, rs') ← roll die 1 rs;
      match r with
      | [] => Raise IndexError
      | x :: _ => Ok (dict_set roll_results i x, rs')
      end
  end.

(** The body of the outer loop: one roll of every die. *)
Definition play_roll (dice : list Die) (roll : Z)
    (st : list (Z * list (Z * face)) * RandomState)
  : result (list (Z * list (Z * face)) * RandomState) :=
  let '(results, rs) := st in
  '(roll_results, rs') ←
    for_each (range (Z.of_nat (length dice))) (play_die dice) ([], rs);
  Ok (dict_set results roll roll_results, rs').

(** [Game.play] (lines 117-141): the dict of dicts of all rolls, then the
    frame made of it, which replaces the table of an earlier play. *)
Definition play (self : Game) (n_rolls : Z) (rs : RandomState)
  : result (Game * RandomState) :=
  '(results, rs') ←
    for_each (range n_rolls) (play_roll (game_dice self)) ([], rs);
  Ok (mkGame (game_dice self) (Some (DataFrame_from_dict results)), rs').

(** One face from each die, in the order of the dice. *)
Definition drawn_from (dice : list Die) (xs : list face) : Prop :=
  Forall2 (λ die x, x ∈ die_faces die) dice xs.

(** The frame with a row of labelled cells for each of the given rolls. *)
Definition table_of (dice : list Die) (xss : list (list face)) : outcomes :=
  mkDataFrame (LInt <$> range (Z.of_nat (length xss)))
    (LInt <$> range (Z.of_nat (length dice)))
    ((λ xs : list face, Some <$> xs) <$> xss).

(** [form == s] *)
Definition py_eq_str (form : pyval) (s : string) : bool :=
  match form with
  | PyStr s' => String.eqb s' s
  | _ => false
  end.

(** [df.stack().reset_index()] with the columns renamed and
    [set_index(['roll', 'die'])]: one row for every cell that is not NaN,
    be it missing or a face that is NaN; rolls first, dice within a
    roll. *)
Definition stack_row (r : label) (columns : list label) (row : list cell)
  : list (label * cell) :=
  omap (λ cv : label * cell,
          match r, cv.1, cv.2 with
          | LInt i, LInt j, Some v =>
              if isna v then None else Some (LPair i j, Some v)
          | _, _, _ => None
          end) (zip columns row).

Definition narrow_frame (df : outcomes) : outcomes :=
  let rows :=
    concat (zip_with (λ r row, stack_row r (df_columns df) row)
              (df_index df) (df_values df)) in
  mkDataFrame (fst <$> rows) [LStr "coutcome"] ((λ rv, [rv.2]) <$> rows).

(** [Game.show] (lines 143-168): the test for an absent table, then the
    form. *)
Definition Game_show (self : Game) (form : pyval) : result (option outcomes) :=
  match game_results self with
  | None => Ok None
  | Some results =>
      if py_eq_str form "wide" then Ok (Some results)
      else if py_eq_str form "narrow" then Ok (Some (narrow_frame results))
      else Raise ValueError
  end.

(** ** Analyzer *)

(** What a caller may pass to [Analyzer]: an instance of [Game] (or of a
    class derived from it), an instance of some other class with the names
    of its attributes, or a scalar. *)
Inductive pyobj : Type :=
| PyGame (g : Game)
| PyInstance (cls : string) (attrs : list string)
| PyScalarValue (v : pyval).

Definition isinstance_Game (o : pyobj) : bool :=
  match o with
  | PyGame _ => true
  | _ => false
  end.

(** The analyzer keeps the game it was given and reads its table anew at
    every query. *)
Record Analyzer : Type := mkAnalyzer {
  analyzer_game : Game
}.

(** [Analyzer.__init__] (lines 174-186). *)
Definition Analyzer_init (game : pyobj) : result Analyzer :=
  match game with
  | PyGame g => Ok (mkAnalyzer g)
  | _ => Raise ValueError
  end.

(** [row.nunique()]: the distinct values of a row, NaN left out, be it a
    missing cell or a face. *)
Definition nunique (row : list cell) : nat :=
  length (unique (filter (λ x, isna x = false) (omap id row))).

(** [Analyzer.jackpot] (lines 188-207). *)
Definition jackpot (self : Analyzer) : result Z :=
  results ← Game_show (analyzer_game self) (PyStr "wide");
  match results with
  | None => Ok 0
  | Some results =>
      Ok (fold_left
            (λ jackpot_count row,
               if bool_decide (nunique row = 1%nat) then jackpot_count + 1
               else jackpot_count)
            (df_values results) 0)
  end.

(** [(row == face).sum()]: NaN equals nothing, not even itself. *)
Definition count_face (f : face) (row : list cell) : Z :=
  Z.of_nat (length (filter (λ c, c = Some f ∧ isna f = false) row)).

(** The set built by [all_faces.update(die.show().index)] over the dice,
    as the list of its elements. *)
Definition all_faces (dice : list Die) : list face :=
  unique (concat ((λ die, fst <$> Die_show die) <$> dice)).

(** [Analyzer.face_counts_per_roll] (lines 209-234): a frame on the index
    of the outcomes, one column added for each face in turn. *)
Definition face_counts_per_roll (self : Analyzer)
  : result (option (DataFrame face Z)) :=
  results ← Game_show (analyzer_game self) (PyStr "wide");
  match results with
  | None => Ok None
  | Some results =>
      let face_counts :=
        mkDataFrame (df_index results) [] ((λ _, []) <$> df_index results) in
      Ok (Some
            (fold_left
               (λ face_counts f,
                  add_column face_counts f (count_face f <$> df_values results))
               (all_faces (game_dice (analyzer_game self))) face_counts))
  end.

(** What [<] answers, or the [TypeError] it raises. *)
Definition answer (o : option bool) : result bool :=
  match o with
  | Some b => Ok b
  | None => Raise TypeError
  end.

(** [<] on cells; a missing cell is a float NaN. *)
Definition cell_lt (a b : cell) : result bool :=
  match a, b with
  | Some x, Some y => answer (py_lt x y)
  | None, Some x | Some x, None => answer (lt_nan x)
  | None, None => Ok false
  end.

(** [Analyzer.combo_count] (lines 236-258): [sorted] raises when two faces
    of a roll cannot be compared. *)
Definition combo_count (self : Analyzer)
  : result (option (list (list cell * Z))) :=
  results ← Game_show (analyzer_game self) (PyStr "wide");
  match results with
  | None => Ok None
  | Some results =>
      combos ← map_each (sorted cell_lt) (df_values results);
      Ok (Some (value_counts combos))
  end.

(** [Analyzer.permutation_count] (lines 260-281). *)
Definition permutation_count (self : Analyzer)
  : result (option (list (list cell * Z))) :=
  results ← Game_show (analyzer_game self) (PyStr "wide");
  match results with
  | None => Ok None
  | Some results =>
      let perms := df_values results in
      Ok (Some (value_counts perms))
  end.

(** The Game contract in the words of the specification: the object exposes
    [show] and an accessor to the table of outcomes.  An instance of [Game]
    has both. *)
Definition Game_contract (o : pyobj) : Prop :=
  match o with
  | PyGame _ => True
  | PyInstance _ attrs => "show" ∈ attrs ∧ "_results" ∈ attrs
  | PyScalarValue _ => False
  end.

End Montecarlo.

Arguments Die : clear implicits.
Arguments Game : clear implicits.
Arguments Analyzer : clear implicits.
Arguments pyobj : clear implicits.
Arguments faces_arg : clear implicits.

(** ** Further notions *)

(** The generator after [n] more draws. *)
Definition advance (rs : RandomState) (n : nat) : RandomState :=
  mkRandomState (rs_bits rs) (rs_pos rs + n).

(** The cumulative distribution in which [choice] looks up its uniform
    samples: the running sums of [p], divided by the last of them. *)
Definition choice_cdf (p : list float) : list float :=
  let cdf := cumsum p in
  let total := List.last cdf S754_nan in
  (λ c, fdiv c total) <$> cdf.

(** The probabilities that [roll] hands to [choice]. *)
Definition normalised (ws : list float) : list float :=
  let total := py_sum ws in (λ w, fdiv w total) <$> ws.

(** The three checks of [choice] on [p] pass, and the cumulative
    distribution ends in 1.0, as it does when the last running sum is
    finite and not zero. *)
Definition proper (p : list float) : bool :=
  let p_sum := kahan_sum p in
  negb (f_isnan p_sum)
  && negb (existsb (λ x, flt x f_zero) p)
  && negb (flt atol (fabs (fsub p_sum f_one)))
  && bool_decide (List.last (choice_cdf p) S754_nan = f_one).

(** Zero or above: not NaN, and without the sign of the negative
    numbers. *)
Definition f_nonneg (x : float) : bool :=
  match x with
  | S754_zero _ | S754_finite false _ _ | S754_infinity false => true
  | _ => false
  end.

(** A comparison that is a strict total order, as [<] is on the numbers
    other than NaN and on strings. *)
Record strict_total {A : Type} (lt : A → A → bool) : Prop := mk_strict_total {
  lt_irrefl : ∀ a, lt a a = false;
  lt_trans : ∀ a b c, lt a b = true → lt b c = true → lt a c = true;
  lt_total : ∀ a b, lt a b = false → lt b a = false → a = b
}.

(** [a <= b] for a comparison [lt]: [b] is not below [a]. *)
Definition not_above {A : Type} (lt : A → A → bool) (a b : A) : Prop :=
  lt b a = false.

(** Insertion sort by a comparison that does not raise. *)
Fixpoint insert_by {A : Type} (lt : A → A → bool) (x : A) (l : list A)
  : list A :=
  match l with
  | [] => [x]
  | y :: l' => if lt x y then x :: y :: l' else y :: insert_by lt x l'
  end.

Definition sort_by {A : Type} (lt : A → A → bool) (xs : list A) : list A :=
  fold_left (λ acc x, insert_by lt x acc) xs [].

(** The number of elements of [l] equal to [k]. *)
Definition occurrences {A : Type} `{EqDecision A} (k : A) (l : list A) : Z :=
  Z.of_nat (length (filter (λ x, x = k) l)).

Section Notions.

Context {face : Type} `{EqDecision face} `{PyScalar face}.

(** A cell that holds a face, and not NaN. *)
Definition present (c : option face) : Prop :=
  match c with
  | Some f => isna f = false
  | None => False
  end.

#[global] Instance present_dec (c : option face) : Decision (present c).
Proof. destruct c; apply _. Defined.

(** A row in which every die shows the same face, and not NaN. *)
Definition one_face (row : list (option face)) : Prop :=
  match row with
  | Some f :: _ => isna f = false ∧ Forall (λ c, c = Some f) row
  | _ => False
  end.

#[global] Instance one_face_dec (row : list (option face))
  : Decision (one_face row).
Proof. destruct row as [|[f|] row]; apply _. Defined.

(** Dice without a face that is NaN. *)
Definition nan_free (dice : list (Die face)) : Prop :=
  Forall (λ die, Forall (λ f, isna f = false) (die_faces die)) dice.

(** A row whose cells [<] compares without raising. *)
Definition comparable (row : list (option face)) : Prop :=
  ∀ a b, a ∈ row → b ∈ row → ∃ v, cell_lt a b = Ok v.

(** [<] is the comparison [lt], and never raises. *)
Definition lt_is (lt : face → face → bool) : Prop :=
  ∀ x y, py_lt x y = Some (lt x y).

End Notions.

(** ** Sample objects *)

Module Samples.

(** A generator that counts upwards in steps of 3 * 10^15. *)
Definition rs0 : RandomState :=
  mkRandomState (λ n, Z.of_nat n * 3000000000000000) 0.

(** A generator whose draws are all close to 1. *)
Definition rs_high : RandomState :=
  mkRandomState (λ _, 2 ^ 53 - 1) 0.

(** A machine with memory for arrays of up to 2^20 doubles. *)
Definition small_error (size : Z) : option exn :=
  if size <? 0 then Some ValueError
  else if 2 ^ 20 <? size then Some MemoryError
  else None.

#[export] Instance small_machine : Machine.
Proof.
  refine {| np_empty_error := small_error |}; intros size Hsize;
    unfold small_error.
  - rewrite (proj2 (Z.ltb_lt size 0) Hsize). by eexists.
  - destruct (size <? 0); [by eexists|].
    assert (H20 : 2 ^ 20 < size) by (eapply Z.lt_le_trans; [|exact Hsize]; done).
    rewrite (proj2 (Z.ltb_lt _ _) H20). by eexists.
Defined.

(** A machine with memory for arrays of up to four doubles, to be named
    where it is meant. *)
Definition tiny_error (size : Z) : option exn :=
  if size <? 0 then Some ValueError
  else if 4 <? size then Some MemoryError
  else None.

Definition tiny_machine : Machine.
Proof.
  refine {| np_empty_error := tiny_error |}; intros size Hsize;
    unfold tiny_error.
  - rewrite (proj2 (Z.ltb_lt size 0) Hsize). by eexists.
  - destruct (size <? 0); [by eexists|].
    assert (H4 : 4 < size) by (eapply Z.lt_le_trans; [|exact Hsize]; done).
    rewrite (proj2 (Z.ltb_lt _ _) H4). by eexists.
Defined.

(** The integers, as faces: [<] compares any two, and none is NaN. *)
#[export] Instance Z_scalar : PyScalar Z := {|
  py_lt x y := Some (x <? y);
  lt_nan _ := Some false;
  isna _ := false
|}.

(** Numbers, strings and a float NaN, as faces of dice of different
    dtypes. *)
Inductive scalar : Type :=
| SNum (z : Z)
| SStr (s : string)
| SNaN.

#[export] Instance scalar_eq_dec : EqDecision scalar.
Proof. solve_decision. Defined.

#[export] Instance scalar_scalar : PyScalar scalar := {|
  py_lt x y :=
    match x, y with
    | SNum a, SNum b => Some (a <? b)
    | SStr a, SStr b => Some (String.ltb a b)
    | SNaN, SNum _ | SNum _, SNaN | SNaN, SNaN => Some false
    | _, _ => None
    end;
  lt_nan x := match x with SStr _ => None | _ => Some false end;
  isna x := match x with SNaN => true | _ => false end
|}.

(** [float] on the strings the samples use. *)
Definition float_of_str (s : string) : option float :=
  if String.eqb s "2.5" then Some (S754_finite false 5629499534213120 (-51))
  else if String.eqb s "inf" then Some (S754_infinity false)
  else if String.eqb s "nan" then Some S754_nan
  else None.

(** [Die(np.array([1, 2]))] *)
Definition fair : Die Z := mkDie [(1, f_one); (2, f_one)].

(** The same die after [change_weight(1, -1)] and [change_weight(2, -1)]. *)
Definition negative : Die Z := mkDie [(1, of_Z (-1)); (2, of_Z (-1))].

(** After [change_weight(1, 3)] and [change_weight(2, -1)]. *)
Definition mixed : Die Z := mkDie [(1, of_Z 3); (2, of_Z (-1))].

(** After [change_weight(1, 0)] and [change_weight(2, 0)]. *)
Definition weightless : Die Z := mkDie [(1, of_Z 0); (2, of_Z 0)].

(** After [change_weight(1, 1)] and [change_weight(2, -3)]. *)
Definition sinking : Die Z := mkDie [(1, of_Z 1); (2, of_Z (-3))].

(** After [change_weight(2, 'inf')]. *)
Definition boundless : Die Z := mkDie [(1, f_one); (2, S754_infinity false)].

(** After [change_weight(1, 2.0 ** -700)] and [change_weight(2, -2.0 ** 700)]:
    the first weight divided by the sum is too small for a double. *)
Definition faint : Die Z :=
  mkDie [(1, S754_finite false 4503599627370496 (-752));
         (2, S754_finite true 4503599627370496 648)].

(** After [change_weight(1, 10 ** 308)] and [change_weight(2, 10 ** 308)]:
    the sum is too large for a double. *)
Definition brimming : Die Z :=
  mkDie [(1, of_Z (10 ^ 308)); (2, of_Z (10 ^ 308))].

(** [Die(np.array([1, 2, 3]))] after [change_weight(1, 0)] and
    [change_weight(3, 0)]: only 2 can come up. *)
Definition loaded : Die Z := mkDie [(1, of_Z 0); (2, f_one); (3, of_Z 0)].

(** [Die(np.array([1, 2, 3]))] as it is made. *)
Definition three : Die Z := mkDie [(1, f_one); (2, f_one); (3, f_one)].

(** [Die(np.array([1, 2]))] and [Die(np.array(['a', 'b']))], two dice of
    different dtypes, and [Die(np.array([1.0, np.nan]))]. *)
Definition numbers : Die scalar := mkDie [(SNum 1, f_one); (SNum 2, f_one)].
Definition letters : Die scalar :=
  mkDie [(SStr "a", f_one); (SStr "b", f_one)].
Definition holed : Die scalar := mkDie [(SNum 1, f_one); (SNaN, f_one)].

(** An object of a class of its own that offers everything a [Game]
    does. *)
Definition duck : pyobj Z :=
  PyInstance "FakeGame" ["_dice"; "_results"; "play"; "show"].

(** [Game([fair, fair])] with the table of the test suite forced into
    [_results]. *)
Definition forced : Game Z :=
  mkGame [fair; fair]
    (Some (mkDataFrame (LInt <$> range 5) (LInt <$> range 2)
             ((λ x : Z, [Some x; Some x]) <$> [1; 2; 3; 4; 5]))).

End Samples.

(** ** Distinct elements *)

Section Unique.

Context {A : Type} `{EqDecision A}.

Lemma elem_of_unique (l : list A) (x : A) : x ∈ unique l ↔ x ∈ l.
Proof.
  induction l as [|y l IH]; simpl; [done|].
  rewrite !elem_of_cons, list_elem_of_filter, IH.
  destruct (decide (x = y)); tauto.
Qed.

Lemma NoDup_unique (l : list A) : NoDup (unique l).
Proof.
  induction l as [|y l IH]; simpl; [constructor|].
  constructor; [|by apply NoDup_filter].
  rewrite list_elem_of_filter. intros [Hne _]. by apply Hne.
Qed.

Lemma filter_all (P : A → Prop) `{∀ x, Decision (P x)} (l : list A) :
  Forall P l → filter P l = l.
Proof.
  induction 1 as [|x l HP _ IH]; [done|].
  rewrite filter_cons. destruct (decide (P x)); [by rewrite IH | done].
Qed.

Lemma filter_none (P : A → Prop) `{∀ x, Decision (P x)} (l : list A) :
  Forall (λ x, ¬ P x) l → filter P l = [].
Proof.
  induction 1 as [|x l HP _ IH]; [done|].
  rewrite filter_cons. destruct (decide (P x)); [done | by rewrite IH].
Qed.

Lemma unique_app (l m : list A) :
  NoDup l → unique (l ++ m) = l ++ filter (λ y, y ∉ l) (unique m).
Proof.
  revert m. induction l as [|x l IH]; intros m Hl; simpl.
  - symmetry. apply filter_all, Forall_forall. intros y _. apply not_elem_of_nil.
  - apply NoDup_cons in Hl as [Hx Hl]. rewrite IH by done. f_equal.
    rewrite filter_app. f_equal.
    + apply filter_all, Forall_forall. intros y Hy ->. done.
    + rewrite list_filter_filter. apply list_filter_iff. intros y.
      rewrite not_elem_of_cons. tauto.
Qed.

Lemma unique_app_absorb (l m : list A) :
  NoDup l → (∀ x, x ∈ m → x ∈ l) → unique (l ++ m) = l.
Proof.
  intros Hl Hm. rewrite unique_app by done.
  rewrite filter_none; [by rewrite app_nil_r|].
  apply Forall_forall. intros y Hy Hn. apply Hn, Hm. by apply elem_of_unique.
Qed.

(** Counting the occurrences of every distinct value counts every element. *)
Lemma count_absent (ks : list A) (x : A) :
  x ∉ ks →
  foldr Z.add 0 ((λ k, Z.of_nat (length (filter (λ y, y = k) [x]))) <$> ks) = 0.
Proof.
  induction ks as [|k ks IH]; intros Hx; [done|].
  apply not_elem_of_cons in Hx as [Hne Hx].
  rewrite fmap_cons. cbn [foldr]. rewrite IH by done.
  rewrite filter_cons, filter_nil. by destruct (decide (x = k)).
Qed.

Lemma count_indicator (ks : list A) (x : A) :
  NoDup ks → x ∈ ks →
  foldr Z.add 0 ((λ k, Z.of_nat (length (filter (λ y, y = k) [x]))) <$> ks) = 1.
Proof.
  induction 1 as [|k ks Hk Hks IH]; intros Hx; [by apply elem_of_nil in Hx|].
  rewrite fmap_cons. cbn [foldr]. rewrite filter_cons, filter_nil.
  apply elem_of_cons in Hx as [->|Hx].
  - rewrite count_absent by done. by destruct (decide (k = k)).
  - rewrite IH by done. destruct (decide (x = k)) as [->|]; done.
Qed.

Lemma count_total (ks l : list A) :
  NoDup ks → (∀ x, x ∈ l → x ∈ ks) →
  foldr Z.add 0 ((λ k, Z.of_nat (length (filter (λ y, y = k) l))) <$> ks)
  = Z.of_nat (length l).
Proof.
  intros Hks. induction l as [|x l IH]; intros Hl.
  - clear Hks Hl. induction ks as [|k ks IH]; [done|].
    rewrite fmap_cons. cbn [foldr]. by rewrite IH.
  - specialize (IH (λ y Hy, Hl y (list_elem_of_further _ _ _ Hy))).
    pose proof (count_indicator ks x Hks (Hl x (list_elem_of_here _ _))) as H1.
    rewrite length_cons, Nat2Z.inj_succ, <- IH, <- Z.add_1_l, <- H1.
    clear. induction ks as [|k ks IHk]; [done|].
    rewrite !fmap_cons. cbn [foldr]. rewrite IHk.
    rewrite !filter_cons, filter_nil.
    destruct (decide (x = k)); cbn [length]; lia.
Qed.

End Unique.

Lemma length_unique_fmap {A B : Type} `{EqDecision A} `{EqDecision B}
    (f : A → B) (l : list A) :
  (length (unique (f <$> l)) ≤ length (unique l))%nat.
Proof.
  rewrite <- (length_fmap f (unique l)).
  apply submseteq_length, NoDup_submseteq; [apply NoDup_unique|].
  intros y Hy. apply elem_of_unique, list_elem_of_fmap in Hy as (x & -> & Hx).
  apply list_elem_of_fmap. exists x. by rewrite elem_of_unique.
Qed.

(** ** More on distinct elements *)

Section UniqueMore.

Context {A : Type} `{EqDecision A}.

Lemma unique_NoDup (l : list A) : NoDup l → unique l = l.
Proof.
  induction 1 as [|x l Hx _ IH]; [done|]. cbn [unique]. rewrite IH.
  f_equal. apply filter_all, Forall_forall. by intros y Hy ->.
Qed.

Lemma unique_sublist (l : list A) : unique l `sublist_of` l.
Proof.
  induction l as [|x l IH]; [done|]. cbn [unique].
  apply sublist_skip. etransitivity; [apply sublist_filter|done].
Qed.

Lemma length_unique_NoDup (l : list A) :
  length (unique l) = length l ↔ NoDup l.
Proof.
  split; [|intros Hl; by rewrite unique_NoDup].
  intros Hlen.
  assert (Heq : unique l ≡ₚ l).
  { apply submseteq_length_Permutation;
      [apply sublist_submseteq, unique_sublist | lia]. }
  rewrite <- Heq. apply NoDup_unique.
Qed.

End UniqueMore.

Lemma last_elem_of {A : Type} (x : A) (l : list A) (d : A) :
  List.last (x :: l) d ∈ x :: l.
Proof.
  revert x. induction l as [|y l IH]; intros x; [apply list_elem_of_here|].
  apply list_elem_of_further. apply IH.
Qed.

(** ** Dicts *)

Lemma dict_set_fresh {K V : Type} `{EqDecision K} (d : list (K * V)) (k : K)
    (v : V) :
  k ∉ (fst <$> d) → dict_set d k v = d ++ [(k, v)].
Proof.
  induction d as [|[k' v'] d IH]; intros Hk; [done|].
  rewrite fmap_cons in Hk. apply not_elem_of_cons in Hk as [Hne Hk].
  cbn [dict_set]. rewrite decide_False by done. by rewrite IH.
Qed.

Lemma dict_get_zip_other {K V : Type} `{EqDecision K} (ks : list K)
    (xs : list V) (k0 : K) (x0 : V) (cs : list K) :
  k0 ∉ cs →
  (λ c, dict_get ((k0, x0) :: zip ks xs) c) <$> cs
  = (λ c, dict_get (zip ks xs) c) <$> cs.
Proof.
  intros Hk. apply list_fmap_ext. intros i c Hc. cbn [dict_get].
  rewrite decide_False; [done|]. intros ->. apply Hk.
  by apply list_elem_of_lookup_2 in Hc.
Qed.

Lemma dict_get_zip {K V : Type} `{EqDecision K} (ks : list K) (xs : list V) :
  NoDup ks → length xs = length ks →
  (λ c, dict_get (zip ks xs) c) <$> ks = Some <$> xs.
Proof.
  intros Hks. revert xs. induction Hks as [|k ks Hk Hks IH]; intros xs Hlen.
  - by destruct xs.
  - destruct xs as [|x xs]; [done|].
    rewrite !fmap_cons. f_equal.
    + cbn [zip zip_with dict_get]. by rewrite decide_True.
    + etransitivity; [apply (dict_get_zip_other ks xs k x ks Hk)|]. apply IH.
      cbn [length] in Hlen. lia.
Qed.

Lemma NoDup_range (n : Z) : NoDup (range n).
Proof.
  unfold range. apply NoDup_fmap_2; [apply Nat2Z.inj'|apply NoDup_seq].
Qed.

Lemma length_range (n : Z) : length (range n) = Z.to_nat n.
Proof. unfold range. by rewrite length_fmap, length_seq. Qed.

(** ** The frame built from a dict of dicts *)

Section FromDict.

Context {face : Type} `{EqDecision face}.

Lemma from_dict_no_columns (data : list (Z * list (Z * face))) :
  Forall (λ r, r.2 = []) data →
  DataFrame_from_dict data = mkDataFrame [] [] [].
Proof.
  intros Hall. unfold DataFrame_from_dict.
  assert (Hrows : filter (λ r : Z * list (Z * face), r.2 ≠ []) data = []).
  { apply filter_none. apply Forall_forall. intros r Hr Hn. apply Hn.
    exact (proj1 (Forall_forall _ _) Hall r Hr). }
  assert (Hcols : concat ((λ r : Z * list (Z * face), fst <$> r.2) <$> data) = []).
  { clear Hrows. induction Hall as [|r data Hr _ IH]; [done|].
    rewrite fmap_cons. cbn [concat]. by rewrite Hr, IH. }
  by rewrite Hrows, Hcols.
Qed.

Lemma from_dict_uniform (ks rows : list Z) (xss : list (list face)) :
  NoDup ks → ks ≠ [] → xss ≠ [] → length rows = length xss →
  Forall (λ xs, length xs = length ks) xss →
  DataFrame_from_dict (zip rows ((λ xs : list face, zip ks xs) <$> xss))
  = mkDataFrame (LInt <$> rows) (LInt <$> ks)
      ((λ xs : list face, Some <$> xs) <$> xss).
Proof.
  intros Hks Hne Hxss Hlen Hall. unfold DataFrame_from_dict.
  set (data := zip rows ((λ xs : list face, zip ks xs) <$> xss)).
  assert (Hkeys : Forall (λ r : Z * list (Z * face), fst <$> r.2 = ks) data).
  { apply Forall_forall. intros [r d] Hr. cbn [snd].
    apply elem_of_zip_r, list_elem_of_fmap in Hr as (xs & -> & Hxs).
    apply fst_zip. rewrite (proj1 (Forall_forall _ _) Hall xs Hxs). lia. }
  assert (Hcols : unique (concat ((λ r : Z * list (Z * face), fst <$> r.2) <$> data))
                  = ks).
  { destruct data as [|r0 data'] eqn:Hdata.
    - exfalso. unfold data in Hdata. destruct rows, xss; done.
    - apply Forall_cons in Hkeys as [H0 Hrest].
      rewrite fmap_cons. cbn [concat]. rewrite H0.
      apply unique_app_absorb; [done|]. intros x Hx.
      apply list_elem_of_In, in_concat in Hx as (l & Hl & Hx).
      apply list_elem_of_In in Hl, Hx.
      apply list_elem_of_fmap in Hl as (r & -> & Hr).
      by rewrite (proj1 (Forall_forall _ _) Hrest r Hr) in Hx. }
  assert (Hrows : filter (λ r : Z * list (Z * face), r.2 ≠ []) data = data).
  { apply filter_all. eapply Forall_impl; [exact Hkeys|].
    intros [r d] Hr Hnil. cbn [snd] in Hr, Hnil. subst d. by destruct ks. }
  rewrite Hcols, Hrows. f_equal.
  - f_equal. unfold data. apply fst_zip. rewrite length_fmap. lia.
  - unfold data. clear data Hkeys Hcols Hrows Hxss.
    revert rows Hlen. induction Hall as [|xs xss Hxs _ IH]; intros rows Hlen.
    + by destruct rows.
    + destruct rows as [|r rows]; [done|].
      rewrite !fmap_cons. cbn [zip zip_with fmap list_fmap snd].
      f_equal; [by apply dict_get_zip|]. apply IH. cbn [length] in Hlen. lia.
Qed.

End FromDict.

(** ** Frequency tables *)

Lemma foldr_Zadd_Permutation (l1 l2 : list Z) :
  l1 ≡ₚ l2 → foldr Z.add 0 l1 = foldr Z.add 0 l2.
Proof. induction 1; cbn [foldr]; lia. Qed.

Section ValueCounts.

Context {A : Type} `{EqDecision A}.

Lemma value_counts_keys (l : list A) : fst <$> value_counts l ≡ₚ unique l.
Proof.
  unfold value_counts. rewrite merge_sort_Permutation.
  rewrite <- list_fmap_compose. by rewrite list_fmap_id.
Qed.

Lemma length_value_counts (l : list A) :
  length (value_counts l) = length (unique l).
Proof. by rewrite <- (length_fmap fst), value_counts_keys. Qed.

Lemma NoDup_value_counts (l : list A) : NoDup (fst <$> value_counts l).
Proof. rewrite value_counts_keys. apply NoDup_unique. Qed.

Lemma count_sum_value_counts (l : list A) :
  count_sum (value_counts l) = Z.of_nat (length l).
Proof.
  unfold count_sum, value_counts.
  erewrite foldr_Zadd_Permutation; [|by rewrite merge_sort_Permutation].
  rewrite <- list_fmap_compose.
  apply (count_total (unique l) l); [apply NoDup_unique|].
  intros x Hx. by apply elem_of_unique.
Qed.

End ValueCounts.

(** ** Columns added one at a time *)

Section AddColumns.

Context {C V R : Type}.

Lemma zip_with_app_nil (vals : list (list V)) (rows : list R) :
  length vals = length rows →
  zip_with (λ (v : list V) (_ : R), v ++ []) vals rows = vals.
Proof.
  revert rows. induction vals as [|v vals IH]; intros [|row rows] Hlen;
    try done.
  cbn [zip_with]. rewrite app_nil_r, IH; [done|]. cbn [length] in Hlen. lia.
Qed.

Lemma zip_with_snoc (g : R → V) (F : R → list V) (vals : list (list V))
    (rows : list R) :
  zip_with (λ v row, v ++ F row)
    (zip_with (λ row x, row ++ [x]) vals (g <$> rows)) rows
  = zip_with (λ v row, v ++ g row :: F row) vals rows.
Proof.
  revert rows. induction vals as [|v vals IH]; intros [|row rows]; try done.
  rewrite fmap_cons. cbn [zip_with]. by rewrite IH, <- app_assoc.
Qed.

Lemma add_columns (count : C → R → V) (rows : list R) (cs : list C)
    (df : DataFrame C V) :
  length (df_values df) = length rows →
  fold_left (λ df c, add_column df c (count c <$> rows)) cs df
  = mkDataFrame (df_index df) (df_columns df ++ cs)
      (zip_with (λ v row, v ++ ((λ c, count c row) <$> cs)) (df_values df) rows).
Proof.
  revert df. induction cs as [|c cs IH]; intros [idx cols vals] Hlen;
    cbn [df_index df_columns df_values] in *.
  - cbn [fold_left fmap list_fmap]. by rewrite app_nil_r, zip_with_app_nil.
  - cbn [fold_left]. rewrite IH.
    + unfold add_column. cbn [df_index df_columns df_values].
      rewrite <- app_assoc, zip_with_snoc. done.
    + unfold add_column. cbn [df_values].
      rewrite length_zip_with, length_fmap. lia.
Qed.

End AddColumns.

(** ** Sorting *)

Section Sorting.

Context {A : Type} (lt : A → A → bool).

Lemma insert_by_Permutation (x : A) (l : list A) :
  insert_by lt x l ≡ₚ x :: l.
Proof.
  induction l as [|y l IH]; [done|]. cbn [insert_by].
  destruct (lt x y); [done|]. rewrite IH. apply Permutation_swap.
Qed.

Lemma sort_by_fold_Permutation (xs acc : list A) :
  fold_left (λ acc x, insert_by lt x acc) xs acc ≡ₚ xs ++ acc.
Proof.
  revert acc. induction xs as [|x xs IH]; intros acc; [done|].
  cbn [fold_left]. rewrite IH, insert_by_Permutation.
  symmetry. apply Permutation_middle.
Qed.

Lemma sort_by_Permutation (xs : list A) : sort_by lt xs ≡ₚ xs.
Proof. unfold sort_by. by rewrite sort_by_fold_Permutation, app_nil_r. Qed.

Hypothesis Hlt : strict_total lt.

Lemma lt_asym (a b : A) : lt a b = true → lt b a = false.
Proof.
  intros Hab. apply not_true_iff_false. intros Hba.
  pose proof (lt_trans lt Hlt a b a Hab Hba) as Haa.
  rewrite (lt_irrefl lt Hlt) in Haa. discriminate.
Qed.

Lemma not_above_trans (a b c : A) :
  not_above lt a b → not_above lt b c → not_above lt a c.
Proof.
  unfold not_above. intros Hba Hcb. apply not_true_iff_false. intros Hca.
  destruct (lt a b) eqn:Hab.
  - rewrite (lt_trans lt Hlt c a b Hca Hab) in Hcb. discriminate.
  - pose proof (lt_total lt Hlt a b Hab Hba) as ->. congruence.
Qed.

Lemma not_above_antisym (a b : A) :
  not_above lt a b → not_above lt b a → a = b.
Proof. unfold not_above. intros Hba Hab. by apply (lt_total lt Hlt). Qed.

Lemma insert_by_HdRel (x y : A) (l : list A) :
  not_above lt y x → HdRel (not_above lt) y l →
  HdRel (not_above lt) y (insert_by lt x l).
Proof.
  intros Hyx Hl. destruct l as [|z l]; cbn [insert_by]; [by constructor|].
  destruct (lt x z); constructor; [done|]. by inversion Hl.
Qed.

Lemma insert_by_Sorted (x : A) (l : list A) :
  Sorted (not_above lt) l → Sorted (not_above lt) (insert_by lt x l).
Proof.
  induction 1 as [|y l Hl IH Hhd]; cbn [insert_by].
  { by repeat constructor. }
  destruct (lt x y) eqn:Hxy.
  - constructor; [by constructor|]. constructor. by apply lt_asym.
  - constructor; [done|]. by apply insert_by_HdRel.
Qed.

Lemma sort_by_Sorted (xs : list A) : Sorted (not_above lt) (sort_by lt xs).
Proof.
  unfold sort_by.
  assert (Hacc : ∀ acc, Sorted (not_above lt) acc →
            Sorted (not_above lt)
              (fold_left (λ acc x, insert_by lt x acc) xs acc)).
  { induction xs as [|x xs IH]; intros acc Hs; [done|].
    cbn [fold_left]. by apply IH, insert_by_Sorted. }
  apply Hacc. constructor.
Qed.

Lemma sort_by_canonical (xs ys : list A) :
  xs ≡ₚ ys → sort_by lt xs = sort_by lt ys.
Proof.
  intros Hp.
  assert (Htr : Transitive (not_above lt)).
  { intros a b c. apply not_above_trans. }
  assert (Has : AntiSymm (=) (not_above lt)).
  { intros a b. apply not_above_antisym. }
  apply (Sorted_unique (not_above lt)); [apply sort_by_Sorted..|].
  by rewrite !sort_by_Permutation.
Qed.

End Sorting.

Lemma insert_by_fmap {A B : Type} (f : A → B) (lt : A → A → bool)
    (lt' : B → B → bool) (x : A) (l : list A) :
  (∀ a b, lt' (f a) (f b) = lt a b) →
  insert_by lt' (f x) (f <$> l) = f <$> insert_by lt x l.
Proof.
  intros Hf. induction l as [|y l IH]; [done|].
  rewrite fmap_cons. cbn [insert_by]. rewrite Hf.
  destruct (lt x y); [done|]. by rewrite IH, fmap_cons.
Qed.

Lemma sort_by_fmap {A B : Type} (f : A → B) (lt : A → A → bool)
    (lt' : B → B → bool) (xs : list A) :
  (∀ a b, lt' (f a) (f b) = lt a b) →
  sort_by lt' (f <$> xs) = f <$> sort_by lt xs.
Proof.
  intros Hf. unfold sort_by.
  assert (Hacc : ∀ acc,
            fold_left (λ acc x, insert_by lt' x acc) (f <$> xs) (f <$> acc)
            = f <$> fold_left (λ acc x, insert_by lt x acc) xs acc).
  { induction xs as [|x xs IH]; intros acc; [done|].
    rewrite fmap_cons. cbn [fold_left].
    by rewrite (insert_by_fmap f lt lt'), IH. }
  apply (Hacc []).
Qed.

(** ** The entries of a frequency table *)

Section Tables.

Context {A : Type} `{EqDecision A}.

Lemma value_counts_entries (l : list A) (k : A) (c : Z) :
  (k, c) ∈ value_counts l ↔ k ∈ l ∧ c = occurrences k l.
Proof.
  unfold value_counts. rewrite merge_sort_Permutation, list_elem_of_fmap.
  split.
  - intros (k' & [= -> ->] & Hk). split; [|done].
    by apply (proj1 (elem_of_unique _ _)).
  - intros [Hk ->]. exists k. split; [done|].
    by apply (proj2 (elem_of_unique _ _)).
Qed.

Lemma value_counts_Sorted (l : list A) :
  Sorted more_frequent (value_counts l).
Proof.
  unfold value_counts.
  assert (Htot : Total (more_frequent (A:=A))).
  { intros a b. unfold more_frequent. lia. }
  apply (Sorted_merge_sort more_frequent).
Qed.

End Tables.

(** ** Floats *)

(** Adding a zero changes nothing, but for the sign of a zero. *)
Lemma fadd_zero_r (x : float) (s : bool) :
  fadd x (S754_zero s) = x
  ∨ (f_iszero x = true ∧ f_iszero (fadd x (S754_zero s)) = true).
Proof. destruct x as [[]| | |]; destruct s; cbn; auto. Qed.

Lemma fdiv_zero_l (s : bool) (y : float) :
  f_iszero (fdiv (S754_zero s) y) = true ∨ fdiv (S754_zero s) y = S754_nan.
Proof. destruct y; cbn; auto. Qed.

Lemma fdiv_nan_l (y : float) : fdiv S754_nan y = S754_nan.
Proof. done. Qed.

Lemma fdiv_by_zero (x : float) (s : bool) :
  f_isfinite (fdiv x (S754_zero s)) = false.
Proof. by destruct x. Qed.

Lemma div_eucl_shiftl (m : positive) :
  Z.div_eucl (Z.pos m ≪ 53) (Z.pos m) = (2 ^ 53, 0).
Proof.
  rewrite Z.shiftl_mul_pow2 by lia.
  pose proof (Z.div_mul (2 ^ 53) (Z.pos m) ltac:(lia)) as Hq.
  pose proof (Z.mod_mul (2 ^ 53) (Z.pos m) ltac:(lia)) as Hr.
  rewrite (Z.mul_comm (2 ^ 53)) in Hq, Hr.
  unfold Z.div, Z.modulo in Hq, Hr.
  destruct (Z.div_eucl (Z.pos m * 2 ^ 53) (Z.pos m)) as [q r].
  by rewrite Hq, Hr.
Qed.

(** A finite number other than zero divided by itself is 1.0. *)
Lemma fdiv_self (x : float) :
  f_isfinite x = true → f_iszero x = false → fdiv x x = f_one.
Proof.
  destruct x as [s| | |s m e]; try done. intros _ _.
  unfold fdiv, SFdiv, SFdiv_core_binary.
  replace (Zdigits2 (Z.pos m) + e - (Zdigits2 (Z.pos m) + e)) with 0 by lia.
  replace (e - e) with 0 by lia.
  change (fexp prec emax 0 `min` 0) with (-53).
  change (0 - -53) with 53.
  cbv iota.
  change (IntDef.Z.div_eucl (Z.pos m ≪ 53) (Z.pos m))
    with (Z.div_eucl (Z.pos m ≪ 53) (Z.pos m)).
  rewrite div_eucl_shiftl.
  assert (Hloc : new_location (Z.pos m) 0 = loc_Exact).
  { unfold new_location, new_location_even, new_location_odd.
    by destruct (IntDef.Z.even (Z.pos m)). }
  rewrite Hloc. by destruct s.
Qed.

Lemma fdiv_nonfinite (x y : float) :
  f_isfinite x = false → f_isfinite y = false → fdiv x y = S754_nan.
Proof. by destruct x, y. Qed.

Lemma fadd_nonfinite_l (x y : float) :
  f_isfinite x = false → f_isfinite (fadd x y) = false.
Proof. destruct x as [|[]| |], y as [|[]| |]; done. Qed.

Lemma fadd_nonfinite_r (x y : float) :
  f_isfinite y = false → f_isfinite (fadd x y) = false.
Proof. destruct x as [|[]| |], y as [|[]| |]; done. Qed.

Lemma fadd_nan_r (x : float) : fadd x S754_nan = S754_nan.
Proof. by destruct x. Qed.

Lemma flt_nan_r (u : float) : flt u S754_nan = false.
Proof. by destruct u. Qed.

Lemma flt_nonneg_zero (u c : float) :
  f_nonneg u = true → f_iszero c = true → flt u c = false.
Proof. destruct u as [|[]| |[]], c; done. Qed.

(** [abs(x - 1.) > atol] for an infinite [x]. *)
Lemma off_one_infinity (s : bool) :
  flt atol (fabs (fsub (S754_infinity s) f_one)) = true.
Proof. done. Qed.

(** *** Integers as doubles *)

Lemma digits2_pos_size (m : positive) : digits2_pos m = Pos.size m.
Proof. induction m; cbn; by rewrite ?IHm. Qed.

Lemma digits2_pos_iter (m j : positive) :
  digits2_pos (Pos.iter xO m j) = (digits2_pos m + j)%positive.
Proof.
  induction j as [|j IH] using Pos.peano_ind.
  - cbn. by rewrite Pos.add_1_r.
  - rewrite Pos.iter_succ. cbn. rewrite IH. lia.
Qed.

Lemma digits2_pos_bound (m : positive) (n : Z) :
  0 ≤ n → Z.pos m < 2 ^ n → Z.pos (digits2_pos m) ≤ n.
Proof.
  intros Hn Hm. rewrite digits2_pos_size.
  pose proof (Pos.size_le m) as Hle.
  assert (H2 : 2 ^ Z.pos (Pos.size m) ≤ 2 * Z.pos m).
  { change (2 * Z.pos m) with (Z.pos m~0). rewrite <- Pos2Z.inj_pow. lia. }
  destruct (Z_le_gt_dec (Z.pos (Pos.size m)) n) as [|Hgt]; [done|].
  assert (2 ^ (n + 1) ≤ 2 ^ Z.pos (Pos.size m)) by (apply Z.pow_le_mono_r; lia).
  rewrite Z.pow_add_r in H by lia. lia.
Qed.

(** A mantissa of 53 bits with an exponent in range is a double as it
    stands: rounding leaves it alone. *)
Lemma binary_round_aux_exact (s : bool) (mz : positive) (ez : Z) :
  Z.pos (digits2_pos mz) = 53 → -1074 ≤ ez ≤ 971 →
  binary_round_aux prec emax s (Z.pos mz) ez loc_Exact = S754_finite s mz ez.
Proof.
  intros Hmz Hez. unfold binary_round_aux, shr_fexp. cbn [Zdigits2].
  rewrite Hmz.
  assert (Hf : fexp prec emax (53 + ez) - ez = 0).
  { unfold fexp, emin, prec, emax. lia. }
  rewrite Hf.
  cbn [shr shr_record_of_loc shr_m loc_of_shr_record round_nearest_even
       Zdigits2].
  rewrite Hmz, Hf. cbn [shr shr_m].
  unfold emax, prec. destruct (ez <=? 1024 - 53) eqn:Hle; [done|].
  apply Z.leb_gt in Hle. lia.
Qed.

(** [m * 2^e] for a mantissa of at most 53 bits and an exponent within
    [-1074 + 52, 971]: the mantissa brought to 53 bits, the exponent lowered
    by as much. *)
Lemma binary_round_short (s : bool) (m : positive) (e : Z) :
  Z.pos m < 2 ^ 53 → -1022 ≤ e ≤ 971 →
  ∃ m' e', binary_round prec emax s m e = S754_finite s m' e'
           ∧ e' ≤ e
           ∧ Z.pos m' = Z.pos m * 2 ^ (e - e').
Proof.
  intros Hm He. pose proof (digits2_pos_bound m 53 ltac:(done) Hm) as Hd.
  unfold binary_round.
  set (d := Z.pos (digits2_pos m)) in *.
  assert (Hfexp : fexp prec emax (d + e) = d + e - 53).
  { unfold fexp, emin, prec, emax. lia. }
  rewrite Hfexp. unfold shl_align.
  destruct (d + e - 53 - e) as [|j|j] eqn:Hj.
  - exists m, e. split; [|split; [done|by rewrite Z.sub_diag, Z.mul_1_r]].
    apply binary_round_aux_exact; [fold d; lia | lia].
  - lia.
  - exists (Pos.iter xO m j), (d + e - 53).
    split; [|split; [lia|]].
    + apply binary_round_aux_exact; [|unfold d; lia].
      rewrite digits2_pos_iter. fold d. lia.
    + replace (e - (d + e - 53)) with (Z.pos j) by lia.
      change (Pos.iter xO m j) with (shift_pos j m).
      rewrite shift_pos_correct. change (Zpower_pos 2 j) with (2 ^ Z.pos j). lia.
Qed.

(** [float(z)] is [z] itself for an integer of at most 53 bits. *)
Lemma of_Z_exact (z : Z) :
  Z.abs z < 2 ^ 53 → f_isfinite (of_Z z) = true ∧ float_is_Z (of_Z z) z = true.
Proof.
  intros Hz. unfold of_Z, binary_normalize.
  destruct z as [|m|m]; [by split| |].
  - destruct (binary_round_short false m 0) as (m' & e' & -> & He & Hm');
      [lia|lia|].
    split; [done|]. cbn [float_is_Z cond_Zopp].
    destruct (0 <=? e') eqn:Hle.
    + apply Z.leb_le in Hle. replace e' with 0 in * by lia.
      apply Z.eqb_eq. rewrite Hm'. change (0 - 0) with 0.
      rewrite !Z.pow_0_r. lia.
    + apply Z.eqb_eq. rewrite Hm'. by rewrite Z.sub_0_l.
  - destruct (binary_round_short true m 0) as (m' & e' & -> & He & Hm');
      [lia|lia|].
    split; [done|]. cbn [float_is_Z cond_Zopp].
    destruct (0 <=? e') eqn:Hle.
    + apply Z.leb_le in Hle. replace e' with 0 in * by lia.
      apply Z.eqb_eq. rewrite Hm'. change (0 - 0) with 0.
      rewrite !Z.pow_0_r. lia.
    + apply Z.eqb_eq. rewrite Hm'. replace (0 - e') with (- e') by lia. lia.
Qed.

(** ** Uniform samples *)

(** A uniform sample is at least 0 and below 1. *)
Lemma random_double_unit (rs : RandomState) :
  f_nonneg (random_double rs).1 = true ∧ flt (random_double rs).1 f_one = true.
Proof.
  unfold random_double. cbn [fst].
  pose proof (Z.mod_pos_bound (rs_bits rs (rs_pos rs)) (2 ^ 53) ltac:(done))
    as Hk.
  destruct (rs_bits rs (rs_pos rs) mod 2 ^ 53) as [|m|m]; [done| |lia].
  unfold binary_normalize.
  destruct (binary_round_short false m (-53)) as (m' & e' & -> & He & _);
    [lia|lia|].
  split; [done|]. unfold flt, SFltb, f_one. cbn [SFcompare].
  by rewrite (proj2 (Z.compare_lt_iff e' (-52))) by lia.
Qed.

Lemma random_doubles_spec (n : nat) (rs : RandomState) :
  length (random_doubles n rs).1 = n
  ∧ Forall (λ u, f_nonneg u = true ∧ flt u f_one = true)
      (random_doubles n rs).1.
Proof.
  revert rs. induction n as [|n IH]; intros rs; [by split|].
  cbn [random_doubles].
  pose proof (random_double_unit rs) as Hu.
  destruct (random_double rs) as [u rs1]. cbn [fst] in Hu.
  destruct (IH rs1) as [Hlen Hall].
  destruct (random_doubles n rs1) as [us rs2]. cbn [fst] in *.
  split; [by rewrite <- Hlen | by constructor].
Qed.

Lemma advance_0 (rs : RandomState) : advance rs 0 = rs.
Proof. destruct rs as [bits pos]. unfold advance. cbn. f_equal. lia. Qed.

Lemma advance_advance (rs : RandomState) (n m : nat) :
  advance (advance rs n) m = advance rs (n + m).
Proof. unfold advance. cbn. f_equal. lia. Qed.

Lemma random_doubles_state (n : nat) (rs : RandomState) :
  (random_doubles n rs).2 = advance rs n.
Proof.
  revert rs. induction n as [|n IH]; intros rs; [by rewrite advance_0|].
  cbn [random_doubles]. unfold random_double.
  specialize (IH (mkRandomState (rs_bits rs) (S (rs_pos rs)))).
  destruct (random_doubles n _) as [us rs2]. cbn [snd] in *. subst rs2.
  unfold advance. cbn. f_equal. lia.
Qed.

Lemma random_doubles_app (n m : nat) (rs : RandomState) :
  (random_doubles (n + m) rs).1
  = (random_doubles n rs).1 ++ (random_doubles m (advance rs n)).1.
Proof.
  revert rs. induction n as [|n IH]; intros rs; [by rewrite advance_0|].
  cbn [Nat.add random_doubles]. unfold random_double.
  specialize (IH (mkRandomState (rs_bits rs) (S (rs_pos rs)))).
  destruct (random_doubles (n + m) _) as [us rs2].
  destruct (random_doubles n _) as [us1 rs1]. cbn [fst] in *. subst us.
  replace (advance (mkRandomState (rs_bits rs) (S (rs_pos rs))) n)
    with (advance rs (S n)) by (unfold advance; cbn; f_equal; lia).
  done.
Qed.

(** ** Sums *)

(** Once the compensated sum is infinite or NaN it stays so. *)
Lemma kahan_fold_nonfinite (p : list float) (sum c : float) :
  f_isfinite sum = false →
  f_isfinite (fold_left kahan_step p (sum, c)).1 = false.
Proof.
  revert sum c. induction p as [|x p IH]; intros sum c Hsum; [done|].
  cbn [fold_left kahan_step]. apply IH. by apply fadd_nonfinite_l.
Qed.

Lemma kahan_sum_nonfinite (x : float) (p : list float) :
  f_isfinite x = false → f_isfinite (kahan_sum (x :: p)) = false.
Proof. apply kahan_fold_nonfinite. Qed.

Lemma kahan_fold_nan (p : list float) (st : float * float) :
  S754_nan ∈ p → f_isfinite (fold_left kahan_step p st).1 = false.
Proof.
  revert st. induction p as [|x p IH]; intros [sum c] Hin;
    [by apply elem_of_nil in Hin|].
  cbn [fold_left kahan_step].
  destruct (decide (x = S754_nan)) as [->|Hne].
  - apply kahan_fold_nonfinite. change (fsub S754_nan c) with S754_nan.
    by rewrite fadd_nan_r.
  - apply IH. apply elem_of_cons in Hin as [Heq|Hin]; [by destruct Hne|done].
Qed.

Lemma kahan_sum_nan (p : list float) :
  S754_nan ∈ p → f_isfinite (kahan_sum p) = false.
Proof.
  destruct p as [|x p]; [intros Hin; by apply elem_of_nil in Hin|].
  intros Hin. destruct (decide (x = S754_nan)) as [->|Hne].
  - by apply kahan_sum_nonfinite.
  - apply kahan_fold_nan. apply elem_of_cons in Hin as [Heq|Hin];
      [by destruct Hne|done].
Qed.

(** Python's sum is infinite or NaN as soon as a summand is. *)
Lemma fold_fadd_nonfinite (ws : list float) (acc : float) :
  f_isfinite acc = false → f_isfinite (fold_left fadd ws acc) = false.
Proof.
  revert acc. induction ws as [|w ws IH]; intros acc Hacc; [done|].
  cbn [fold_left]. apply IH. by apply fadd_nonfinite_l.
Qed.

Lemma py_sum_nonfinite (ws : list float) :
  Exists (λ w, f_isfinite w = false) ws → f_isfinite (py_sum ws) = false.
Proof.
  intros Hex. unfold py_sum. generalize f_zero.
  induction Hex as [w ws Hw|w ws _ IH]; intros acc; cbn [fold_left].
  - apply fold_fadd_nonfinite. by apply fadd_nonfinite_r.
  - apply IH.
Qed.

Lemma last_cumsum_from (p : list float) (acc d : float) :
  List.last (acc :: cumsum_from acc p) d = fold_left fadd p acc.
Proof.
  revert acc. induction p as [|x p IH]; intros acc; [done|].
  cbn [cumsum_from fold_left]. rewrite <- IH. done.
Qed.

Lemma length_cumsum_from (p : list float) (acc : float) :
  length (cumsum_from acc p) = length p.
Proof.
  revert acc. induction p as [|x p IH]; intros acc; [done|].
  cbn [cumsum_from length]. by rewrite IH.
Qed.

Lemma length_cumsum (p : list float) : length (cumsum p) = length p.
Proof. destruct p; [done|]. cbn [cumsum length]. by rewrite length_cumsum_from. Qed.

Lemma cumsum_from_step (p : list float) (acc c x : float) (i : nat) :
  (acc :: cumsum_from acc p) !! i = Some c → p !! i = Some x →
  (acc :: cumsum_from acc p) !! S i = Some (fadd c x).
Proof.
  revert acc i. induction p as [|y p IH]; intros acc i Hc Hx; [done|].
  destruct i as [|i].
  - injection Hc as <-. by injection Hx as <-.
  - cbn [cumsum_from]. apply (IH (fadd acc y) i); done.
Qed.

Lemma cumsum_step (p : list float) (c x : float) (i : nat) :
  cumsum p !! i = Some c → p !! S i = Some x →
  cumsum p !! S i = Some (fadd c x).
Proof.
  destruct p as [|y p]; [done|]. cbn [cumsum]. intros Hc Hx.
  apply cumsum_from_step; [exact Hc | exact Hx].
Qed.

Lemma length_choice_cdf (p : list float) : length (choice_cdf p) = length p.
Proof. unfold choice_cdf. by rewrite length_fmap, length_cumsum. Qed.

Lemma last_fmap_default {A B : Type} (f : A → B) (l : list A) (a : A) (b : B) :
  l ≠ [] → List.last (f <$> l) b = f (List.last l a).
Proof.
  induction l as [|x l IH]; [done|]. intros _.
  destruct l as [|y l]; [done|].
  rewrite !fmap_cons. rewrite fmap_cons in IH.
  change (List.last (f x :: f y :: (f <$> l)) b)
    with (List.last (f y :: (f <$> l)) b).
  change (List.last (x :: y :: l) a) with (List.last (y :: l) a).
  by apply IH.
Qed.

(** The distribution ends in 1.0 when the last running sum is finite and
    not zero. *)
Lemma choice_cdf_last (p : list float) :
  f_isfinite (List.last (cumsum p) S754_nan) = true →
  f_iszero (List.last (cumsum p) S754_nan) = false →
  List.last (choice_cdf p) S754_nan = f_one.
Proof.
  intros Hfin Hzero. unfold choice_cdf.
  assert (Hne : cumsum p ≠ []) by (intros Hnil; by rewrite Hnil in Hfin).
  rewrite (last_fmap_default _ _ S754_nan) by done. by apply fdiv_self.
Qed.

(** ** The search in the distribution *)

Lemma searchsorted_right_lt (cdf : list float) (key c : float) :
  c ∈ cdf → flt key c = true →
  (searchsorted_right cdf key < length cdf)%nat.
Proof.
  induction cdf as [|x cdf IH]; intros Hc Hgt; [by apply elem_of_nil in Hc|].
  cbn [searchsorted_right length].
  destruct (flt key x) eqn:Hx; [lia|].
  apply elem_of_cons in Hc as [->|Hc]; [congruence|].
  specialize (IH Hc Hgt). lia.
Qed.

Lemma searchsorted_right_found (cdf : list float) (key : float) (i : nat)
    (c : float) :
  searchsorted_right cdf key = i → cdf !! i = Some c → flt key c = true.
Proof.
  revert i. induction cdf as [|x cdf IH]; intros i Hi Hc; [done|].
  cbn [searchsorted_right] in Hi. destruct (flt key x) eqn:Hx.
  - subst i. by injection Hc as <-.
  - destruct i as [|i]; [done|]. injection Hi as Hi. by apply (IH i).
Qed.

Lemma searchsorted_right_before (cdf : list float) (key : float) (i j : nat)
    (c : float) :
  searchsorted_right cdf key = i → (j < i)%nat → cdf !! j = Some c →
  flt key c = false.
Proof.
  revert i j. induction cdf as [|x cdf IH]; intros i j Hi Hj Hc; [done|].
  cbn [searchsorted_right] in Hi. destruct (flt key x) eqn:Hx; [lia|].
  destruct i as [|i]; [done|]. injection Hi as Hi.
  destruct j as [|j]; [by injection Hc as <-|].
  apply (IH i j); [done|lia|done].
Qed.

(** The search never stops at a position whose probability is a zero or
    NaN: the running sum does not move there. *)
Lemma searchsorted_right_skips_zero (p : list float) (u : float) (i : nat)
    (x : float) :
  f_nonneg u = true → p !! i = Some x →
  f_iszero x = true ∨ x = S754_nan →
  searchsorted_right (choice_cdf p) u ≠ i.
Proof.
  intros Hu Hx Hzero Hfound.
  set (L := List.last (cumsum p) S754_nan).
  assert (Hcdf : ∀ j c, cumsum p !! j = Some c →
                 choice_cdf p !! j = Some (fdiv c L)).
  { intros j c Hj. unfold choice_cdf. by rewrite list_lookup_fmap, Hj. }
  assert (Hnone : ∀ c, f_iszero c = true ∨ c = S754_nan →
                  flt u (fdiv c L) = false).
  { intros c [Hc | ->]; [|by rewrite fdiv_nan_l, flt_nan_r].
    destruct c as [s| | |]; try done.
    destruct (fdiv_zero_l s L) as [Hz | ->];
      [by apply flt_nonneg_zero | apply flt_nan_r]. }
  destruct i as [|i].
  - destruct p as [|x0 p]; [done|]. injection Hx as ->.
    pose proof (searchsorted_right_found _ _ _ _ Hfound (Hcdf 0%nat x eq_refl))
      as Hgt.
    by rewrite Hnone in Hgt.
  - assert (Hi : (i < length (cumsum p))%nat).
    { rewrite length_cumsum. apply lookup_lt_Some in Hx. lia. }
    destruct (lookup_lt_is_Some_2 _ _ Hi) as [c Hc].
    pose proof (cumsum_step p c x i Hc Hx) as Hsi.
    pose proof (searchsorted_right_found _ _ _ _ Hfound (Hcdf _ _ Hsi)) as Hgt.
    pose proof (searchsorted_right_before _ _ _ i _ Hfound
                  (Nat.lt_succ_diag_r i) (Hcdf _ _ Hc)) as Hle.
    destruct Hzero as [Hz | ->].
    + destruct x as [s| | |]; try done.
      destruct (fadd_zero_r c s) as [Heq | [Hc0 Hc1]].
      * rewrite Heq in Hgt. congruence.
      * by rewrite Hnone in Hgt by (by left).
    + rewrite fadd_nan_r in Hgt. by rewrite Hnone in Hgt by (by right).
Qed.

(** ** np.random.choice *)

Section Choice.

Context {face : Type} `{Machine}.
Implicit Types (a : list face) (p : list float) (rs : RandomState).

Lemma np_empty_nonneg (size : Z) : np_empty_error size = None → 0 ≤ size.
Proof.
  intros Hnone. destruct (Z_lt_le_dec size 0) as [Hneg|]; [|done].
  destruct (np_empty_negative size Hneg) as [e He]. congruence.
Qed.

(** What a successful [choice] did: the checks passed, the array of
    samples was allocated, and the faces are those at the positions found
    for the uniform samples. *)
Lemma choice_Ok_inv a size p rs r rs' :
  choice a size p rs = Ok (r, rs') →
  0 ≤ size
  ∧ np_empty_error size = None
  ∧ length p = length a
  ∧ f_isnan (kahan_sum p) = false
  ∧ existsb (λ x, flt x f_zero) p = false
  ∧ flt atol (fabs (fsub (kahan_sum p) f_one)) = false
  ∧ rs' = advance rs (Z.to_nat size)
  ∧ mapM (λ i, a !! i)
      (searchsorted_right (choice_cdf p)
         <$> (random_doubles (Z.to_nat size) rs).1) = Some r.
Proof.
  unfold choice, random_sample, choice_cdf.
  destruct (bool_decide (length a = 0%nat) && negb (size =? 0)); [done|].
  case_bool_decide as Hlen; [|done]. cbn [negb].
  destruct (f_isnan (kahan_sum p)); [done|].
  destruct (existsb _ p); [done|].
  destruct (flt atol _); [done|].
  destruct (np_empty_error size) as [e|] eqn:Hsize; [done|].
  cbn [mbind result_bind].
  pose proof (random_doubles_state (Z.to_nat size) rs) as Hst.
  destruct (random_doubles (Z.to_nat size) rs) as [us rs1]. cbn [fst snd] in *.
  destruct (mapM _ _) as [results|]; [|done].
  intros [= <- <-]. repeat split; try done. by apply np_empty_nonneg.
Qed.

Lemma choice_Ok_intro a size p rs r :
  np_empty_error size = None → length p = length a → p ≠ [] →
  f_isnan (kahan_sum p) = false → existsb (λ x, flt x f_zero) p = false →
  flt atol (fabs (fsub (kahan_sum p) f_one)) = false →
  mapM (λ i, a !! i)
    (searchsorted_right (choice_cdf p)
       <$> (random_doubles (Z.to_nat size) rs).1) = Some r →
  choice a size p rs = Ok (r, advance rs (Z.to_nat size)).
Proof.
  intros Hsize Hlen Hp Hnan Hneg Hoff Hmap. unfold choice, random_sample.
  assert (Ha : bool_decide (length a = 0%nat) = false).
  { apply bool_decide_eq_false_2. intros Ha. rewrite Ha in Hlen.
    by destruct p. }
  rewrite Ha, bool_decide_eq_true_2, Hnan, Hneg, Hoff, Hsize by done.
  cbn [andb negb mbind result_bind]. fold (choice_cdf p).
  pose proof (random_doubles_state (Z.to_nat size) rs) as Hst.
  destruct (random_doubles (Z.to_nat size) rs) as [us rs1]. cbn [fst snd] in *.
  by rewrite Hmap, Hst.
Qed.

(** Whatever [choice] returns has the size asked for and comes from [a]. *)
Lemma choice_Ok a size p rs r rs' :
  choice a size p rs = Ok (r, rs') →
  0 ≤ size ∧ length r = Z.to_nat size ∧ Forall (λ x, x ∈ a) r.
Proof.
  intros Hc. apply choice_Ok_inv in Hc as (Hsize & _ & _ & _ & _ & _ & _ & Hm).
  apply mapM_Some_1 in Hm. split; [done|]. split.
  - rewrite <- (Forall2_length _ _ _ Hm), length_fmap.
    apply random_doubles_spec.
  - clear Hsize. induction Hm as [|i x idx r Hi _ IH]; constructor; [|done].
    by apply list_elem_of_lookup_2 in Hi.
Qed.

(** A negative probability is refused. *)
Lemma choice_raise_negative a size p rs :
  existsb (λ x, flt x f_zero) p = true → choice a size p rs = Raise ValueError.
Proof.
  intros Hneg. unfold choice. rewrite Hneg.
  repeat (case_match; try done).
Qed.

(** So are probabilities whose sum is infinite or NaN. *)
Lemma choice_raise_nonfinite a size p rs :
  f_isfinite (kahan_sum p) = false → choice a size p rs = Raise ValueError.
Proof.
  intros Hsum. unfold choice.
  destruct (bool_decide (length a = 0%nat) && negb (size =? 0)); [done|].
  destruct (negb (bool_decide (length p = length a))); [done|].
  destruct (kahan_sum p) as [| s | |]; try done.
  cbn [f_isnan]. destruct (existsb _ p); [done|].
  by rewrite off_one_infinity.
Qed.

(** Probabilities that pass the checks and whose distribution ends in 1.0
    are drawn from, when the machine has room for the samples. *)
Lemma choice_proper a size p rs :
  length p = length a → p ≠ [] → proper p = true →
  np_empty_error size = None →
  ∃ r, choice a size p rs = Ok (r, advance rs (Z.to_nat size)).
Proof.
  intros Hlen Hp Hproper Hsize. unfold proper in Hproper.
  apply andb_prop in Hproper as [Hproper Hlast].
  apply andb_prop in Hproper as [Hproper Hoff].
  apply andb_prop in Hproper as [Hnan Hneg].
  apply negb_true_iff in Hnan, Hneg, Hoff. apply bool_decide_eq_true_1 in Hlast.
  assert (Hin : f_one ∈ choice_cdf p).
  { rewrite <- Hlast. pose proof (length_choice_cdf p) as Hl.
    destruct (choice_cdf p) as [|c cdf]; [|apply last_elem_of].
    destruct p; done. }
  assert (Hidx : Forall (λ i, is_Some (a !! i))
                   (searchsorted_right (choice_cdf p)
                      <$> (random_doubles (Z.to_nat size) rs).1)).
  { apply Forall_fmap.
    eapply Forall_impl; [apply random_doubles_spec|]. intros u [_ Hu]. simpl.
    apply lookup_lt_is_Some. rewrite <- Hlen, <- length_choice_cdf.
    by apply (searchsorted_right_lt _ _ f_one). }
  apply mapM_is_Some in Hidx as [r Hr]. exists r.
  by apply choice_Ok_intro.
Qed.

End Choice.

(** ** Die *)

Section DieProperties.

Context {face : Type} `{EqDecision face} `{Machine}.
Variable float_of_str : string → option float.
Implicit Types (die : Die face) (rs : RandomState) (f : face).

Lemma roll_Ok die n rs r rs' :
  roll die n rs = Ok (r, rs') →
  0 ≤ n ∧ length r = Z.to_nat n ∧ Forall (λ x, x ∈ die_faces die) r.
Proof. apply choice_Ok. Qed.

(** What a successful [roll] drew from the generator. *)
Lemma roll_Ok_state die (n : Z) rs r rs' :
  roll die n rs = Ok (r, rs') → rs' = advance rs (Z.to_nat n).
Proof. intros Hroll. by apply choice_Ok_inv in Hroll as (_&_&_&_&_&_&?&_). Qed.

Lemma roll_Ok_room die (n : Z) rs r rs' :
  roll die n rs = Ok (r, rs') → np_empty_error n = None.
Proof. intros Hroll. by apply choice_Ok_inv in Hroll as (_&?&_). Qed.

(** Weights that sum to zero make every probability infinite or NaN. *)
Lemma roll_zero_sum die n rs :
  die_df die ≠ [] → f_iszero (py_sum (die_weights die)) = true →
  roll die n rs = Raise ValueError.
Proof.
  intros Hne Hs. apply choice_raise_nonfinite.
  destruct (py_sum (die_weights die)) as [s| | |]; try done.
  unfold die_weights. destruct (die_df die) as [|[f w] df]; [done|].
  rewrite !fmap_cons. apply kahan_sum_nonfinite, fdiv_by_zero.
Qed.

(** A weight that the division by the sum makes negative is refused. *)
Lemma roll_negative_quotient die n rs :
  Exists (λ w, flt (fdiv w (py_sum (die_weights die))) f_zero = true)
    (die_weights die) →
  roll die n rs = Raise ValueError.
Proof.
  intros Hex. apply choice_raise_negative.
  apply Exists_exists in Hex as (w & Hw & Hlt).
  apply existsb_exists. exists (fdiv w (py_sum (die_weights die))).
  split; [|done]. apply list_elem_of_In, list_elem_of_fmap. by exists w.
Qed.

(** A weight that is infinite or NaN makes its own probability NaN. *)
Lemma roll_nonfinite_weight die n rs :
  Exists (λ w, f_isfinite w = false) (die_weights die) →
  roll die n rs = Raise ValueError.
Proof.
  intros Hex. apply choice_raise_nonfinite, kahan_sum_nan.
  pose proof (py_sum_nonfinite _ Hex) as Hs.
  apply Exists_exists in Hex as (w & Hw & Hinf).
  apply list_elem_of_fmap. exists w. split; [|done].
  symmetry. by apply fdiv_nonfinite.
Qed.

Lemma loc_get_loc_set_eq (df : list (face * float)) f (w : float) :
  f ∈ (fst <$> df) → loc_get (loc_set df f w) f = Some w.
Proof.
  induction df as [|[f' w'] df IH]; intros Hf; [by apply elem_of_nil in Hf|].
  unfold loc_set. rewrite fmap_cons. cbn [fst loc_get].
  destruct (decide (f' = f)) as [->|Hne]; cbn [loc_get].
  - by rewrite decide_True.
  - rewrite decide_False by done. apply IH.
    rewrite fmap_cons in Hf. apply elem_of_cons in Hf as [Heq|Hf]; [|done].
    by destruct Hne.
Qed.

Lemma loc_get_loc_set_ne (df : list (face * float)) f f' (w : float) :
  f' ≠ f → loc_get (loc_set df f w) f' = loc_get df f'.
Proof.
  intros Hne. induction df as [|[f0 w0] df IH]; [done|].
  unfold loc_set. rewrite fmap_cons. cbn [fst loc_get].
  destruct (decide (f0 = f)) as [->|Hne0]; cbn [loc_get].
  - rewrite !decide_False by done. apply IH.
  - destruct (decide (f0 = f')); [done|]. apply IH.
Qed.

Lemma loc_set_faces (df : list (face * float)) f (w : float) :
  fst <$> loc_set df f w = fst <$> df.
Proof.
  unfold loc_set. rewrite <- list_fmap_compose. apply list_fmap_ext.
  intros _ [f' w'] _. simpl. by destruct (decide (f' = f)).
Qed.

Lemma loc_set_loc_set (df : list (face * float)) f (w1 w2 : float) :
  loc_set (loc_set df f w1) f w2 = loc_set df f w2.
Proof.
  unfold loc_set. rewrite <- list_fmap_compose. apply list_fmap_ext.
  intros _ [f' w'] _. cbn [compose fst].
  destruct (decide (f' = f)) as [->|Hne]; cbn [fst];
    repeat case_decide; congruence.
Qed.

Lemma loc_set_comm (df : list (face * float)) f1 f2 (w1 w2 : float) :
  f1 ≠ f2 →
  loc_set (loc_set df f1 w1) f2 w2 = loc_set (loc_set df f2 w2) f1 w1.
Proof.
  intros Hne. unfold loc_set. rewrite <- !list_fmap_compose.
  apply list_fmap_ext. intros _ [f' w'] _. cbn [compose fst].
  destruct (decide (f' = f1)) as [E1|H1];
    destruct (decide (f' = f2)) as [E2|H2]; cbn [fst];
    repeat case_decide; congruence.
Qed.

Lemma loc_set_elem_of (df : list (face * float)) (f : face) (w : float) :
  f ∈ (fst <$> df) → (f, w) ∈ loc_set df f w.
Proof.
  intros Hf. apply list_elem_of_fmap in Hf as ([f' w'] & -> & Hin).
  unfold loc_set. apply list_elem_of_fmap. exists (f', w'). cbn [fst].
  by rewrite decide_True.
Qed.

(** What [change_weight] does with each of the results of [float]. *)
Lemma change_weight_present die f (weight : pyval) :
  f ∈ die_faces die →
  change_weight float_of_str die f weight
  = match py_float float_of_str weight with
    | Ok w => Ok (mkDie (loc_set (die_df die) f w))
    | Raise ValueError | Raise TypeError => Raise TypeError
    | Raise e => Raise e
    end.
Proof.
  intros Hf. unfold change_weight.
  rewrite bool_decide_eq_false_2 by (intros Hn; by apply Hn).
  by destruct (py_float float_of_str weight) as [w|[]].
Qed.

(** [float] raises nothing but [ValueError], [TypeError] and
    [OverflowError]. *)
Lemma py_float_errors (weight : pyval) (e : exn) :
  py_float float_of_str weight = Raise e →
  e = ValueError ∨ e = TypeError ∨ e = OverflowError.
Proof.
  destruct weight as [z|x|s|]; cbn [py_float].
  - destruct (f_isfinite (of_Z z)); [done|]. intros [= <-]. auto.
  - done.
  - destruct (float_of_str s); [done|]. intros [= <-]. auto.
  - intros [= <-]. auto.
Qed.

(** A face of weight zero is not among the faces of a roll. *)
Lemma roll_avoids_zero_weight die (n : Z) rs r rs' (i : nat) (f : face)
    (w : float) :
  NoDup (die_faces die) → die_df die !! i = Some (f, w) → f_iszero w = true →
  roll die n rs = Ok (r, rs') → f ∉ r.
Proof.
  intros Hnd Hi Hw Hroll Hin.
  unfold roll in Hroll.
  apply choice_Ok_inv in Hroll as (_ & _ & _ & _ & _ & _ & _ & Hmap).
  apply mapM_Some_1 in Hmap.
  apply list_elem_of_lookup_1 in Hin as [k Hk].
  destruct (Forall2_lookup_r _ _ _ _ _ Hmap Hk) as (idx & Hidx & Hf).
  rewrite list_lookup_fmap in Hidx.
  destruct ((random_doubles (Z.to_nat n) rs).1 !! k) as [u|] eqn:Hu; [|done].
  cbn [fmap option_fmap option_map] in Hidx. injection Hidx as <-.
  assert (Hfi : die_faces die !! i = Some f).
  { unfold die_faces. by rewrite list_lookup_fmap, Hi. }
  pose proof (NoDup_lookup _ _ _ _ Hnd Hf Hfi) as Heq.
  revert Heq.
  apply (searchsorted_right_skips_zero _ _ _
           (fdiv w (py_sum (die_weights die)))).
  - apply list_elem_of_lookup_2 in Hu.
    by apply (proj1 (Forall_forall _ _)
                (proj2 (random_doubles_spec (Z.to_nat n) rs)) u Hu).
  - unfold die_weights. by rewrite !list_lookup_fmap, Hi.
  - destruct w as [s| | |]; try done. apply fdiv_zero_l.
Qed.

Lemma roll_once die rs r rs' :
  roll die 1 rs = Ok (r, rs') → ∃ x : face, r = [x] ∧ rs' = advance rs 1.
Proof.
  intros Hroll. pose proof (roll_Ok _ _ _ _ _ Hroll) as (_ & Hlen & _).
  apply roll_Ok_state in Hroll.
  destruct r as [|x [|y r]]; try done. by exists x.
Qed.

End DieProperties.

(** ** Game.play *)

Section PlayProperties.

Context {face : Type} `{EqDecision face} `{Machine}.
Implicit Types (dice : list (Die face)) (rs : RandomState).

Lemma keys_fresh (j : nat) (acc_keys : list Z) :
  acc_keys = Z.of_nat <$> seq 0 j → Z.of_nat j ∉ acc_keys.
Proof.
  intros -> Hin. apply list_elem_of_fmap in Hin as (i & Hi & Hin).
  apply Nat2Z.inj in Hi. subst i. apply elem_of_seq in Hin. lia.
Qed.

Lemma keys_extend {V : Type} (j : nat) (acc : list (Z * V)) (v : V) :
  fst <$> acc = Z.of_nat <$> seq 0 j →
  fst <$> (acc ++ [(Z.of_nat j, v)]) = Z.of_nat <$> seq 0 (S j).
Proof. intros Hacc. by rewrite fmap_app, Hacc, seq_S, fmap_app. Qed.

Lemma play_die_spec dice (i : nat) (acc : list (Z * face)) rs out rs' :
  play_die dice (Z.of_nat i) (acc, rs) = Ok (out, rs') →
  ∃ die x, dice !! i = Some die ∧ x ∈ die_faces die
           ∧ out = dict_set acc (Z.of_nat i) x.
Proof.
  unfold play_die. rewrite Nat2Z.id.
  destruct (dice !! i) as [die|]; [|done].
  destruct (roll die 1 rs) as [[r rs1]|] eqn:Hroll; [|done].
  apply roll_Ok in Hroll as (_ & _ & Hin).
  destruct r as [|x r]; [done|]. cbn [mbind result_bind].
  apply Forall_cons in Hin as [Hx _]. intros [= <- <-]. eauto.
Qed.

(** The inner loop appends one face of each remaining die. *)
Lemma play_dice_spec dice (m j : nat) (acc : list (Z * face)) rs out rs' :
  (j + m = length dice)%nat →
  fst <$> acc = Z.of_nat <$> seq 0 j →
  for_each (Z.of_nat <$> seq j m) (play_die dice) (acc, rs) = Ok (out, rs') →
  ∃ xs, out = acc ++ zip (Z.of_nat <$> seq j m) xs
        ∧ drawn_from (drop j dice) xs.
Proof.
  revert j acc rs. induction m as [|m IH]; intros j acc rs Hjm Hacc Hrun.
  - cbn in Hrun. injection Hrun as <- <-. exists [].
    split; [by rewrite app_nil_r|].
    rewrite drop_ge by lia. constructor.
  - cbn [seq] in Hrun. rewrite fmap_cons in Hrun. cbn [for_each] in Hrun.
    destruct (play_die dice (Z.of_nat j) (acc, rs)) as [[acc1 rs1]|] eqn:Hbody;
      [|done].
    cbn [mbind result_bind] in Hrun.
    apply play_die_spec in Hbody as (die & x & Hdie & Hx & ->).
    rewrite dict_set_fresh in Hrun by (by apply keys_fresh).
    apply IH in Hrun as (xs & -> & Hxs); [|lia|by apply keys_extend].
    exists (x :: xs). split.
    + cbn [seq]. rewrite fmap_cons. cbn [zip zip_with]. by rewrite <- app_assoc.
    + rewrite (drop_S _ _ _ Hdie). by constructor.
Qed.

Lemma play_roll_spec dice (roll : Z) (results : list (Z * list (Z * face)))
    rs out rs' :
  play_roll dice roll (results, rs) = Ok (out, rs') →
  ∃ xs, out = dict_set results roll (zip (range (Z.of_nat (length dice))) xs)
        ∧ drawn_from dice xs.
Proof.
  unfold play_roll.
  destruct (for_each _ _ _) as [[roll_results rs1]|] eqn:Hrun; [|done].
  cbn [mbind result_bind]. intros [= <- <-].
  unfold range in Hrun. rewrite Nat2Z.id in Hrun.
  apply (play_dice_spec dice _ 0%nat) in Hrun as (xs & -> & Hxs); [|done..].
  exists xs. split; [|by rewrite drop_0 in Hxs].
  unfold range. by rewrite Nat2Z.id.
Qed.

(** The outer loop appends one row of faces for each remaining roll. *)
Lemma play_rolls_spec dice (m j : nat) (acc : list (Z * list (Z * face)))
    rs out rs' :
  fst <$> acc = Z.of_nat <$> seq 0 j →
  for_each (Z.of_nat <$> seq j m) (play_roll dice) (acc, rs) = Ok (out, rs') →
  ∃ xss, length xss = m
         ∧ out = acc ++ zip (Z.of_nat <$> seq j m)
                   ((λ xs : list face, zip (range (Z.of_nat (length dice))) xs)
                      <$> xss)
         ∧ Forall (drawn_from dice) xss.
Proof.
  revert j acc rs. induction m as [|m IH]; intros j acc rs Hacc Hrun.
  - cbn in Hrun. injection Hrun as <- <-. exists [].
    split; [done|]. split; [by rewrite app_nil_r | constructor].
  - cbn [seq] in Hrun. rewrite fmap_cons in Hrun. cbn [for_each] in Hrun.
    destruct (play_roll dice (Z.of_nat j) (acc, rs)) as [[acc1 rs1]|] eqn:Hroll;
      [|done].
    cbn [mbind result_bind] in Hrun.
    apply play_roll_spec in Hroll as (xs & -> & Hxs).
    rewrite dict_set_fresh in Hrun by (by apply keys_fresh).
    apply IH in Hrun as (xss & Hlen & -> & Hxss); [|by apply keys_extend].
    exists (xs :: xss). split; [by rewrite length_cons, Hlen|]. split.
    + cbn [seq]. rewrite !fmap_cons. cbn [zip zip_with]. by rewrite <- app_assoc.
    + by constructor.
Qed.

(** What [play] stores: the rolls it drew, as a frame; no frame to speak of
    when there is no roll or no die. *)
Lemma play_spec (self : Game face) (n_rolls : Z) rs g' rs' :
  play self n_rolls rs = Ok (g', rs') →
  ∃ xss, length xss = Z.to_nat n_rolls
         ∧ Forall (drawn_from (game_dice self)) xss
         ∧ game_dice g' = game_dice self
         ∧ game_results g'
           = Some (if bool_decide (xss = [] ∨ game_dice self = [])
                   then mkDataFrame [] [] []
                   else table_of (game_dice self) xss).
Proof.
  unfold play.
  destruct (for_each _ _ _) as [[results rs1]|] eqn:Hrun; [|done].
  cbn [mbind result_bind]. intros [= <- <-].
  unfold range in Hrun.
  apply (play_rolls_spec _ _ 0%nat) in Hrun as (xss & Hlen & -> & Hxss); [|done].
  exists xss. split; [done|]. split; [done|]. split; [done|].
  cbn [game_results app]. f_equal.
  assert (Hrows : Forall (λ xs, length xs = length (range (Z.of_nat (length (game_dice self))))) xss).
  { eapply Forall_impl; [exact Hxss|]. intros xs Hxs.
    rewrite length_range, Nat2Z.id. symmetry. by apply Forall2_length in Hxs. }
  case_bool_decide as Hempty.
  - apply from_dict_no_columns, Forall_forall. intros [r d] Hr. cbn [snd].
    apply elem_of_zip_r, list_elem_of_fmap in Hr as (xs & -> & Hxs).
    destruct Hempty as [-> | Hd]; [by apply elem_of_nil in Hxs|].
    pose proof (proj1 (Forall_forall _ _) Hrows xs Hxs) as Hl.
    rewrite Hd in *. by destruct xs.
  - assert (Hne : xss ≠ []) by (intros Hx; apply Hempty; by left).
    assert (Hd : game_dice self ≠ []) by (intros Hx; apply Hempty; by right).
    rewrite from_dict_uniform; try done.
    + unfold table_of, range. by rewrite Hlen, !Nat2Z.id.
    + apply NoDup_range.
    + intros Hr. apply (f_equal length) in Hr.
      rewrite length_range, Nat2Z.id in Hr. by destruct (game_dice self).
    + by rewrite length_fmap, length_seq.
Qed.

End PlayProperties.

(** ** More on Game.play *)

Section PlayMore.

Context {face : Type} `{EqDecision face} `{Machine}.
Implicit Types (dice : list (Die face)) (rs : RandomState).

Lemma play_die_trace dice (i : nat) (acc : list (Z * face)) rs out rs' :
  play_die dice (Z.of_nat i) (acc, rs) = Ok (out, rs') →
  ∃ die x, dice !! i = Some die
           ∧ roll die 1 rs = Ok ([x], advance rs 1)
           ∧ rs' = advance rs 1
           ∧ out = dict_set acc (Z.of_nat i) x.
Proof.
  unfold play_die. rewrite Nat2Z.id.
  destruct (dice !! i) as [die|]; [|done].
  destruct (roll die 1 rs) as [[r rs1]|] eqn:Hroll; [|done].
  destruct (roll_once _ _ _ _ Hroll) as (x & -> & ->).
  cbn [mbind result_bind]. intros [= <- <-]. eauto 10.
Qed.

(** The inner loop draws once for each die, in the order of the dice. *)
Lemma play_dice_trace dice (m j : nat) (acc : list (Z * face)) rs out rs' :
  (j + m = length dice)%nat →
  fst <$> acc = Z.of_nat <$> seq 0 j →
  for_each (Z.of_nat <$> seq j m) (play_die dice) (acc, rs) = Ok (out, rs') →
  rs' = advance rs m
  ∧ ∃ xs, out = acc ++ zip (Z.of_nat <$> seq j m) xs
          ∧ length xs = m
          ∧ ∀ t die, (t < m)%nat → dice !! (j + t)%nat = Some die →
              ∃ x, xs !! t = Some x
                   ∧ roll die 1 (advance rs t) = Ok ([x], advance rs (S t)).
Proof.
  revert j acc rs. induction m as [|m IH]; intros j acc rs Hjm Hacc Hrun.
  - cbn in Hrun. injection Hrun as <- <-. split; [by rewrite advance_0|].
    exists []. split; [by rewrite app_nil_r|]. split; [done|]. lia.
  - cbn [seq] in Hrun. rewrite fmap_cons in Hrun. cbn [for_each] in Hrun.
    destruct (play_die dice (Z.of_nat j) (acc, rs)) as [[acc1 rs1]|] eqn:Hbody;
      [|done].
    cbn [mbind result_bind] in Hrun.
    apply play_die_trace in Hbody as (die & x & Hdie & Hroll & -> & ->).
    rewrite dict_set_fresh in Hrun by (by apply keys_fresh).
    apply IH in Hrun as (-> & xs & -> & Hlen & Htrace);
      [|lia|by apply keys_extend].
    split; [by rewrite advance_advance|].
    exists (x :: xs). split; [|split; [cbn [length]; lia|]].
    + cbn [seq]. rewrite fmap_cons. cbn [zip zip_with]. by rewrite <- app_assoc.
    + intros [|t] die' Ht Hdie'.
      * rewrite Nat.add_0_r, Hdie in Hdie'. injection Hdie' as <-.
        exists x. split; [done|]. by rewrite advance_0.
      * replace (j + S t)%nat with (S j + t)%nat in Hdie' by lia.
        destruct (Htrace t die') as (x' & Hx' & Hroll'); [lia|done|].
        exists x'. split; [done|].
        by rewrite !advance_advance in Hroll'.
Qed.

Lemma play_roll_trace dice (roll_no : Z) (results : list (Z * list (Z * face)))
    rs out rs' :
  play_roll dice roll_no (results, rs) = Ok (out, rs') →
  rs' = advance rs (length dice)
  ∧ ∃ xs, out = dict_set results roll_no
                  (zip (range (Z.of_nat (length dice))) xs)
          ∧ length xs = length dice
          ∧ ∀ t die, dice !! t = Some die →
              ∃ x, xs !! t = Some x
                   ∧ roll die 1 (advance rs t) = Ok ([x], advance rs (S t)).
Proof.
  unfold play_roll.
  destruct (for_each _ _ _) as [[roll_results rs1]|] eqn:Hrun; [|done].
  cbn [mbind result_bind]. intros [= <- <-].
  unfold range in Hrun. rewrite Nat2Z.id in Hrun.
  apply (play_dice_trace dice _ 0%nat) in Hrun
    as (-> & xs & -> & Hlen & Htrace); [|done..].
  split; [done|]. exists xs. split; [by unfold range; rewrite Nat2Z.id|].
  split; [done|]. intros t die Hdie. apply Htrace; [|done].
  by apply lookup_lt_Some in Hdie.
Qed.

(** The outer loop draws a row for each roll, one after the other. *)
Lemma play_rolls_trace dice (m j : nat) (acc : list (Z * list (Z * face)))
    rs out rs' :
  fst <$> acc = Z.of_nat <$> seq 0 j →
  for_each (Z.of_nat <$> seq j m) (play_roll dice) (acc, rs) = Ok (out, rs') →
  rs' = advance rs (m * length dice)
  ∧ ∃ xss, length xss = m
           ∧ out = acc ++ zip (Z.of_nat <$> seq j m)
                     ((λ xs : list face, zip (range (Z.of_nat (length dice))) xs)
                        <$> xss)
           ∧ Forall (λ xs, length xs = length dice) xss
           ∧ ∀ i t die, (i < m)%nat → dice !! t = Some die →
               ∃ xs x, xss !! i = Some xs ∧ xs !! t = Some x
                       ∧ roll die 1 (advance rs (i * length dice + t))
                         = Ok ([x], advance rs (S (i * length dice + t))).
Proof.
  revert j acc rs. induction m as [|m IH]; intros j acc rs Hacc Hrun.
  - cbn in Hrun. injection Hrun as <- <-. split; [by rewrite advance_0|].
    exists []. split; [done|]. split; [by rewrite app_nil_r|].
    split; [constructor|]. lia.
  - cbn [seq] in Hrun. rewrite fmap_cons in Hrun. cbn [for_each] in Hrun.
    destruct (play_roll dice (Z.of_nat j) (acc, rs)) as [[acc1 rs1]|] eqn:Hroll;
      [|done].
    cbn [mbind result_bind] in Hrun.
    apply play_roll_trace in Hroll as (-> & xs & -> & Hlen & Hxs).
    rewrite dict_set_fresh in Hrun by (by apply keys_fresh).
    apply IH in Hrun as (-> & xss & Hlens & -> & Hall & Htrace);
      [|by apply keys_extend].
    split; [rewrite advance_advance; f_equal; lia|].
    exists (xs :: xss). split; [cbn [length]; lia|]. split; [|split].
    + cbn [seq]. rewrite !fmap_cons. cbn [zip zip_with]. by rewrite <- app_assoc.
    + by constructor.
    + intros [|i] t die Hi Hdie.
      * destruct (Hxs t die Hdie) as (x & Hx & Hr). exists xs, x.
        split; [done|]. split; [done|]. by rewrite Nat.mul_0_l, Nat.add_0_l.
      * destruct (Htrace i t die) as (xs' & x & Hxs' & Hx & Hr); [lia|done|].
        exists xs', x. split; [done|]. split; [done|].
        rewrite !advance_advance in Hr.
        replace (S i * length dice + t)%nat
          with (length dice + (i * length dice + t))%nat by lia.
        replace (S (length dice + (i * length dice + t)))
          with (length dice + S (i * length dice + t))%nat by lia.
        done.
Qed.

(** Where every cell of the table that [play] stores comes from. *)
Lemma play_trace (self : Game face) (n_rolls : Z) rs g' rs' :
  play self n_rolls rs = Ok (g', rs') →
  rs' = advance rs (Z.to_nat n_rolls * length (game_dice self))
  ∧ ∀ (i t : nat) die,
      (i < Z.to_nat n_rolls)%nat → game_dice self !! t = Some die →
      ∃ results row x,
        game_results g' = Some results
        ∧ df_values results !! i = Some row ∧ row !! t = Some (Some x)
        ∧ roll die 1 (advance rs (i * length (game_dice self) + t))
          = Ok ([x], advance rs (S (i * length (game_dice self) + t))).
Proof.
  unfold play.
  destruct (for_each _ _ _) as [[results rs1]|] eqn:Hrun; [|done].
  cbn [mbind result_bind]. intros [= <- <-].
  unfold range in Hrun.
  apply (play_rolls_trace _ _ 0%nat) in Hrun
    as (-> & xss & Hlen & -> & Hall & Htrace); [|done].
  split; [done|]. intros i t die Hi Hdie.
  destruct (Htrace i t die Hi Hdie) as (xs & x & Hxs & Hx & Hroll).
  eexists. exists (Some <$> xs), x. cbn [game_results app].
  split; [done|]. split; [|split; [by rewrite list_lookup_fmap, Hx|done]].
  rewrite from_dict_uniform; cbn [df_values].
  - by rewrite list_lookup_fmap, Hxs.
  - apply NoDup_range.
  - intros Hr. apply (f_equal length) in Hr.
    rewrite length_range, Nat2Z.id in Hr. apply lookup_lt_Some in Hdie.
    cbn [length] in Hr. lia.
  - intros ->. done.
  - by rewrite length_fmap, length_seq.
  - eapply Forall_impl; [exact Hall|]. intros xs' Hxs'. simpl.
    by rewrite length_range, Nat2Z.id.
Qed.

(** X11.  [play] takes its draws from the generator one after the other,
    die by die within a roll and roll after roll: the cell of roll [i] and
    die [t] is the face that die returns when rolled once at draw
    [i * len(dice) + t], and the generator ends [n_rolls * len(dice)] draws
    further. *)
Theorem play_draws_in_order (self : Game face) (n_rolls : Z) rs g' rs' :
  play self n_rolls rs = Ok (g', rs') →
  rs' = advance rs (Z.to_nat n_rolls * length (game_dice self))
  ∧ ∀ (i t : nat) die,
      (i < Z.to_nat n_rolls)%nat → game_dice self !! t = Some die →
      ∃ results row x,
        game_results g' = Some results
        ∧ df_values results !! i = Some row ∧ row !! t = Some (Some x)
        ∧ roll die 1 (advance rs (i * length (game_dice self) + t))
          = Ok ([x], advance rs (S (i * length (game_dice self) + t))).
Proof. apply play_trace. Qed.

End PlayMore.

(** ** Loops that may raise *)

Lemma map_each_Ok {A B : Type} (f : A → result B) (xs : list A)
    (ys : list B) :
  map_each f xs = Ok ys ↔ Forall2 (λ x y, f x = Ok y) xs ys.
Proof.
  revert ys. induction xs as [|x xs IH]; intros ys; cbn [map_each].
  - split; [intros [= <-]; constructor | by inversion 1].
  - destruct (f x) as [y|e] eqn:Hx; cbn [mbind result_bind].
    + destruct (map_each f xs) as [ys'|e] eqn:Hxs; cbn [mbind result_bind].
      * split.
        -- intros [= <-]. constructor; [done|]. by apply IH.
        -- inversion 1 as [|? y' ? ys'' Hy Hys]; subst.
           apply IH in Hys. congruence.
      * split; [done|]. inversion 1 as [|? y' ? ys'' Hy Hys]; subst.
        apply IH in Hys. done.
    + split; [done|]. inversion 1; subst. congruence.
Qed.

Lemma map_each_raise {A B : Type} (f : A → result B) (xs : list A) (e : exn) :
  map_each f xs = Raise e → ∃ x, x ∈ xs ∧ f x = Raise e.
Proof.
  induction xs as [|x xs IH]; cbn [map_each]; [done|].
  destruct (f x) as [y|e'] eqn:Hx; cbn [mbind result_bind].
  - destruct (map_each f xs) as [ys'|e'] eqn:Hxs; cbn [mbind result_bind];
      [done|].
    intros [= <-]. destruct IH as (x' & Hin & Hx'); [done|].
    exists x'. split; [by apply list_elem_of_further | done].
  - intros [= <-]. exists x. split; [apply list_elem_of_here | done].
Qed.

Lemma map_each_total {A B : Type} (f : A → result B) (xs : list A) :
  Forall (λ x, ∃ y, f x = Ok y) xs → ∃ ys, map_each f xs = Ok ys.
Proof.
  induction 1 as [|x xs [y Hy] _ [ys IH]]; [by eexists|].
  exists (y :: ys). cbn [map_each]. by rewrite Hy, IH.
Qed.

(** ** Sorting with a comparison that may raise *)

Section Sorted.

Context {A : Type} (lt' : A → A → result bool).

(** Where the comparison answers as [lt] does, [sorted] is the insertion
    sort by [lt]. *)
Lemma sorted_insert_agree (lt : A → A → bool) (x : A) (l : list A) :
  (∀ b, b ∈ l → lt' x b = Ok (lt x b)) →
  sorted_insert lt' x l = Ok (insert_by lt x l).
Proof.
  induction l as [|y l IH]; intros Hlt; [done|].
  cbn [sorted_insert insert_by].
  rewrite (Hlt y) by apply list_elem_of_here. cbn [mbind result_bind].
  destruct (lt x y); [done|].
  rewrite IH; [done|]. intros b Hb. by apply Hlt, list_elem_of_further.
Qed.

Lemma sorted_fold_agree (lt : A → A → bool) (xs acc : list A) :
  (∀ a b, a ∈ xs ++ acc → b ∈ xs ++ acc → lt' a b = Ok (lt a b)) →
  for_each xs (λ x acc, sorted_insert lt' x acc) acc
  = Ok (fold_left (λ acc x, insert_by lt x acc) xs acc).
Proof.
  revert acc. induction xs as [|x xs IH]; intros acc Hlt; [done|].
  cbn [for_each fold_left].
  rewrite (sorted_insert_agree lt).
  - cbn [mbind result_bind]. apply IH. intros a b Ha Hb.
    apply Hlt.
    + apply elem_of_app in Ha as [Ha|Ha].
      * apply elem_of_app. left. by apply list_elem_of_further.
      * rewrite insert_by_Permutation in Ha. apply elem_of_cons in Ha as [->|Ha].
        -- apply list_elem_of_here.
        -- apply list_elem_of_further, elem_of_app. by right.
    + apply elem_of_app in Hb as [Hb|Hb].
      * apply elem_of_app. left. by apply list_elem_of_further.
      * rewrite insert_by_Permutation in Hb. apply elem_of_cons in Hb as [->|Hb].
        -- apply list_elem_of_here.
        -- apply list_elem_of_further, elem_of_app. by right.
  - intros b Hb. apply Hlt; [apply list_elem_of_here|].
    apply list_elem_of_further, elem_of_app. by right.
Qed.

Lemma sorted_agree (lt : A → A → bool) (xs : list A) :
  (∀ a b, a ∈ xs → b ∈ xs → lt' a b = Ok (lt a b)) →
  sorted lt' xs = Ok (sort_by lt xs).
Proof.
  intros Hlt. apply sorted_fold_agree. by rewrite app_nil_r.
Qed.

(** Where the comparison answers at all, [sorted] returns a rearrangement
    of the list. *)
Lemma sorted_total (xs : list A) :
  (∀ a b, a ∈ xs → b ∈ xs → ∃ v, lt' a b = Ok v) →
  ∃ key, sorted lt' xs = Ok key ∧ key ≡ₚ xs.
Proof.
  intros Hlt.
  set (lt := λ a b, match lt' a b with Ok v => v | Raise _ => false end).
  exists (sort_by lt xs). split; [|apply sort_by_Permutation].
  apply sorted_agree. intros a b Ha Hb. unfold lt.
  by destruct (Hlt a b Ha Hb) as [v ->].
Qed.

(** [sorted] raises what the comparison raises. *)
Lemma sorted_insert_raise (x : A) (l : list A) (e : exn) :
  sorted_insert lt' x l = Raise e → ∃ a b, lt' a b = Raise e.
Proof.
  induction l as [|y l IH]; [done|]. cbn [sorted_insert].
  destruct (lt' x y) as [[]|e'] eqn:Hxy; cbn [mbind result_bind]; [done| |].
  - destruct (sorted_insert lt' x l) as [l'|e'] eqn:Hl;
      cbn [mbind result_bind]; [done|].
    intros [= <-]. by apply IH.
  - intros [= <-]. eauto.
Qed.

Lemma sorted_raise (xs : list A) (e : exn) :
  sorted lt' xs = Raise e → ∃ a b, lt' a b = Raise e.
Proof.
  unfold sorted. generalize (@nil A) as acc.
  induction xs as [|x xs IH]; intros acc; [done|]. cbn [for_each].
  destruct (sorted_insert lt' x acc) as [acc'|e'] eqn:Hins;
    cbn [mbind result_bind].
  - apply IH.
  - intros [= <-]. by apply sorted_insert_raise in Hins.
Qed.

(** What [sorted] returns is a rearrangement of the list. *)
Lemma sorted_insert_Permutation (x : A) (l l' : list A) :
  sorted_insert lt' x l = Ok l' → l' ≡ₚ x :: l.
Proof.
  revert l'. induction l as [|y l IH]; intros l'; cbn [sorted_insert].
  - by intros [= <-].
  - destruct (lt' x y) as [[]|e'] eqn:Hxy; cbn [mbind result_bind]; [| |done].
    + by intros [= <-].
    + destruct (sorted_insert lt' x l) as [l''|e'] eqn:Hl;
        cbn [mbind result_bind]; [|done].
      intros [= <-]. rewrite (IH l'' eq_refl). apply Permutation_swap.
Qed.

Lemma sorted_Permutation (xs key : list A) :
  sorted lt' xs = Ok key → key ≡ₚ xs.
Proof.
  unfold sorted. rewrite <- (app_nil_r xs) at 2. generalize (@nil A) as acc.
  induction xs as [|x xs IH]; intros acc; cbn [for_each].
  - by intros [= <-].
  - destruct (sorted_insert lt' x acc) as [acc'|e'] eqn:Hins;
      cbn [mbind result_bind]; [|done].
    intros Hrun. rewrite (IH _ Hrun).
    rewrite (sorted_insert_Permutation _ _ _ Hins).
    symmetry. apply Permutation_middle.
Qed.

End Sorted.

(** ** Analyzer *)

Section AnalyzerProperties.

Context {face : Type} `{EqDecision face} `{PyScalar face}.
Implicit Types (self a : Analyzer face) (xs ys : list face).

Lemma Game_show_wide (g : Game face) :
  Game_show g (PyStr "wide") = Ok (game_results g).
Proof. unfold Game_show. by destruct (game_results g). Qed.

Lemma elem_of_all_faces (dice : list (Die face)) (f : face) :
  f ∈ all_faces dice ↔ ∃ die, die ∈ dice ∧ f ∈ die_faces die.
Proof.
  unfold all_faces. rewrite elem_of_unique, list_elem_of_In, in_concat.
  split.
  - intros (l & Hl & Hf). apply list_elem_of_In, list_elem_of_fmap in Hl
      as (die & -> & Hdie).
    exists die. split; [done|]. by apply list_elem_of_In.
  - intros (die & Hdie & Hf). exists (die_faces die). split.
    + apply list_elem_of_In, list_elem_of_fmap. by exists die.
    + by apply list_elem_of_In.
Qed.

Lemma drawn_from_all_faces (dice : list (Die face)) xs (x : face) :
  drawn_from dice xs → x ∈ xs → x ∈ all_faces dice.
Proof.
  intros Hxs Hx. apply elem_of_all_faces.
  apply list_elem_of_lookup_1 in Hx as [i Hi].
  destruct (Forall2_lookup_r _ _ _ _ _ Hxs Hi) as (die & Hdie & Hin).
  exists die. split; [|done]. by apply list_elem_of_lookup_2 in Hdie.
Qed.

Lemma drawn_from_nan_free (dice : list (Die face)) xs :
  nan_free dice → drawn_from dice xs → Forall (λ x, isna x = false) xs.
Proof.
  intros Hfree Hxs. apply Forall_forall. intros x Hx.
  apply list_elem_of_lookup_1 in Hx as [i Hi].
  destruct (Forall2_lookup_r _ _ _ _ _ Hxs Hi) as (die & Hdie & Hin).
  apply list_elem_of_lookup_2 in Hdie.
  by apply (proj1 (Forall_forall _ _) (proj1 (Forall_forall _ _) Hfree die Hdie)).
Qed.

(** NaN counts for no face. *)
Lemma count_face_Some (f : face) xs :
  count_face f (Some <$> xs)
  = Z.of_nat (length (filter (λ y, y = f) (filter (λ y, isna y = false) xs))).
Proof.
  unfold count_face. f_equal. induction xs as [|x xs IH]; [done|].
  rewrite fmap_cons, !filter_cons.
  destruct (decide (Some x = Some f ∧ isna f = false)) as [[Heq Hna]|Hne].
  - injection Heq as ->. rewrite decide_True by done.
    rewrite filter_cons, decide_True by done. cbn [length].
    exact (f_equal S IH).
  - destruct (decide (isna x = false)) as [Hx|Hx]; [|exact IH].
    rewrite filter_cons.
    destruct (decide (x = f)) as [->|Hxf]; [|exact IH].
    exfalso. apply Hne. by split.
Qed.

(** The counts of a roll over all faces of the dice sum to the number of
    dice that do not show NaN. *)
Lemma face_counts_row_sum (dice : list (Die face)) xs :
  drawn_from dice xs →
  foldr Z.add 0 ((λ f, count_face f (Some <$> xs)) <$> all_faces dice)
  = Z.of_nat (length (filter (λ y, isna y = false) xs)).
Proof.
  intros Hxs.
  rewrite <- (count_total (all_faces dice) (filter (λ y, isna y = false) xs)).
  - f_equal. apply list_fmap_ext. intros _ f _. apply count_face_Some.
  - apply NoDup_unique.
  - intros x Hx. apply list_elem_of_filter in Hx as [_ Hx].
    by apply (drawn_from_all_faces dice xs).
Qed.

Lemma face_counts_per_roll_played self (results : outcomes) :
  game_results (analyzer_game self) = Some results →
  length (df_index results) = length (df_values results) →
  face_counts_per_roll self
  = Ok (Some (mkDataFrame (df_index results)
                (all_faces (game_dice (analyzer_game self)))
                ((λ row, (λ f, count_face f row)
                           <$> all_faces (game_dice (analyzer_game self)))
                   <$> df_values results))).
Proof.
  intros Hres Hlen. unfold face_counts_per_roll.
  rewrite Game_show_wide, Hres. cbn [mbind result_bind].
  rewrite (add_columns count_face); cbn [df_index df_columns df_values app].
  - do 3 f_equal. clear Hres. revert Hlen.
    generalize (df_index results) as idx. generalize (df_values results) as rows.
    intros rows. induction rows as [|row rows IH]; intros [|i idx] Hlen;
      try done.
    rewrite !fmap_cons. cbn [zip_with app]. f_equal. apply IH.
    cbn [length] in Hlen. lia.
  - by rewrite length_fmap.
Qed.

(** *** Jackpots *)

Lemma length_unique_1 {A : Type} `{EqDecision A} (l : list A) :
  length (unique l) = 1%nat ↔ l ≠ [] ∧ Forall (λ x, Forall (λ y, x = y) l) l.
Proof.
  split.
  - intros Hlen. destruct (unique l) as [|x [|y u]] eqn:Hu; try done.
    assert (Hall : ∀ y, y ∈ l → y = x).
    { intros y Hy. apply (proj2 (elem_of_unique _ _)) in Hy. rewrite Hu in Hy.
      by apply list_elem_of_singleton in Hy. }
    split; [intros ->; done|].
    apply Forall_forall. intros a' Ha. apply Forall_forall. intros b Hb.
    by rewrite (Hall a' Ha), (Hall b Hb).
  - intros [Hne Hall]. destruct l as [|x l]; [by destruct Hne|].
    cbn [unique].
    assert (Hnil : filter (λ y, y ≠ x) (unique l) = []).
    { apply filter_none, Forall_forall. intros y Hy Hn. apply Hn.
      apply (proj1 (elem_of_unique _ _)) in Hy.
      apply Forall_cons in Hall as [Hx _].
      symmetry. apply (proj1 (Forall_forall _ _) Hx).
      by apply list_elem_of_further. }
    by rewrite Hnil.
Qed.

Lemma omap_id_Some (row : list (option face)) :
  Forall is_Some row → Some <$> omap id row = row.
Proof.
  induction 1 as [|c row [x ->] _ IH]; [done|].
  cbn [omap list_omap id]. rewrite fmap_cons. by rewrite IH.
Qed.

Lemma omap_id_fmap_Some xs : omap id (Some <$> xs) = xs.
Proof.
  induction xs as [|x xs IH]; [done|]. rewrite fmap_cons.
  cbn [omap list_omap id]. by rewrite IH.
Qed.

(** A row of cells that are all present is a row of faces none of which is
    NaN. *)
Lemma present_row (row : list (option face)) :
  Forall present row →
  ∃ xs, row = Some <$> xs ∧ Forall (λ x, isna x = false) xs.
Proof.
  induction 1 as [|c row Hc _ (xs & -> & Hxs)]; [by exists []|].
  destruct c as [x|]; [|done]. exists (x :: xs). split; [done|].
  by constructor.
Qed.

Lemma nunique_faces xs :
  Forall (λ x, isna x = false) xs →
  nunique (Some <$> xs) = length (unique xs).
Proof.
  intros Hxs. unfold nunique. by rewrite omap_id_fmap_Some, filter_all.
Qed.

Lemma one_face_faces xs :
  one_face (Some <$> xs)
  ↔ ∃ f, isna f = false ∧ xs ≠ [] ∧ Forall (λ x, x = f) xs.
Proof.
  destruct xs as [|x xs]; [split; [done|by intros (f & _ & Hne & _)]|].
  rewrite fmap_cons. cbn [one_face]. rewrite Forall_cons. split.
  - intros (Hna & _ & Hall). exists x. split; [done|]. split; [done|].
    constructor; [done|]. apply Forall_fmap in Hall.
    eapply Forall_impl; [exact Hall|]. intros y [= ->]. done.
  - intros (f & Hna & _ & Hall). apply Forall_cons in Hall as [-> Hall].
    split; [done|]. split; [done|]. apply Forall_fmap.
    eapply Forall_impl; [exact Hall|]. by intros y ->.
Qed.

Lemma nunique_one_face (row : list (option face)) :
  Forall present row → nunique row = 1%nat ↔ one_face row.
Proof.
  intros Hrow. destruct (present_row row Hrow) as (xs & -> & Hxs).
  rewrite nunique_faces, length_unique_1, one_face_faces by done. split.
  - intros [Hne Hall]. destruct xs as [|x xs]; [done|]. exists x.
    apply Forall_cons in Hxs as [Hx _]. split; [done|]. split; [done|].
    apply Forall_cons in Hall as [Hall _].
    eapply Forall_impl; [exact Hall|]. by intros y ->.
  - intros (f & _ & Hne & Hall). split; [done|].
    apply Forall_forall. intros x Hx. apply Forall_forall. intros y Hy.
    by rewrite (proj1 (Forall_forall _ _) Hall x Hx),
               (proj1 (Forall_forall _ _) Hall y Hy).
Qed.

Lemma jackpot_count (rows : list (list (option face))) (c0 : Z) :
  fold_left
    (λ jackpot_count row,
       if bool_decide (nunique row = 1%nat) then jackpot_count + 1
       else jackpot_count) rows c0
  = c0 + Z.of_nat (length (filter (λ row, nunique row = 1%nat) rows)).
Proof.
  revert c0. induction rows as [|row rows IH]; intros c0; cbn [fold_left].
  - rewrite filter_nil. cbn [length]. lia.
  - rewrite IH, filter_cons. case_bool_decide.
    + rewrite decide_True by done. cbn [length].
      rewrite Nat2Z.inj_succ. unfold Z.succ.
      rewrite <- Z.add_assoc, (Z.add_comm 1). reflexivity.
    + rewrite decide_False by done. reflexivity.
Qed.

Lemma filter_ext_Forall {A : Type} (P Q : A → Prop)
    `{∀ x, Decision (P x)} `{∀ x, Decision (Q x)} (l : list A) :
  Forall (λ x, P x ↔ Q x) l → filter P l = filter Q l.
Proof.
  induction 1 as [|x l Hx _ IH]; [done|].
  rewrite !filter_cons, IH.
  destruct (decide (P x)), (decide (Q x)); tauto.
Qed.

Lemma jackpot_played a (results : outcomes) :
  game_results (analyzer_game a) = Some results →
  jackpot a
  = Ok (Z.of_nat (length (filter (λ row, nunique row = 1%nat)
                            (df_values results)))).
Proof.
  intros Hres. unfold jackpot.
  rewrite Game_show_wide, Hres. cbn [mbind result_bind].
  by rewrite jackpot_count, Z.add_0_l.
Qed.

Lemma jackpot_is_count a (results : outcomes) :
  game_results (analyzer_game a) = Some results →
  Forall (Forall present) (df_values results) →
  jackpot a = Ok (Z.of_nat (length (filter one_face (df_values results)))).
Proof.
  intros Hres Hrows. rewrite (jackpot_played a results Hres). do 3 f_equal.
  apply filter_ext_Forall. eapply Forall_impl; [exact Hrows|].
  intros row Hrow. by apply nunique_one_face.
Qed.

(** *** Combinations and permutations *)

Lemma cell_lt_raise (c1 c2 : option face) (e : exn) :
  cell_lt c1 c2 = Raise e → e = TypeError.
Proof.
  destruct c1 as [x|], c2 as [y|]; cbn [cell_lt]; try done.
  - destruct (py_lt x y); [done|]. by intros [= <-].
  - destruct (lt_nan x); [done|]. by intros [= <-].
  - destruct (lt_nan y); [done|]. by intros [= <-].
Qed.

Lemma permutation_count_played a (results : outcomes) :
  game_results (analyzer_game a) = Some results →
  permutation_count a = Ok (Some (value_counts (df_values results))).
Proof.
  intros Hres. unfold permutation_count. by rewrite Game_show_wide, Hres.
Qed.

(** [combo_count] returns the frequency table of the sorted rolls, when
    every roll can be sorted. *)
Lemma combo_count_Ok a (results : outcomes) combos :
  game_results (analyzer_game a) = Some results →
  combo_count a = Ok (Some combos)
  ↔ ∃ keys, Forall2 (λ row key, sorted cell_lt row = Ok key)
              (df_values results) keys
            ∧ combos = value_counts keys.
Proof.
  intros Hres. unfold combo_count. rewrite Game_show_wide, Hres.
  cbn [mbind result_bind].
  destruct (map_each (sorted cell_lt) (df_values results)) as [keys|e]
    eqn:Hkeys; cbn [mbind result_bind].
  - apply map_each_Ok in Hkeys. split.
    + intros [= <-]. by exists keys.
    + intros (keys' & Hkeys' & ->). do 3 f_equal.
      apply map_each_Ok in Hkeys, Hkeys'. congruence.
  - split; [done|]. intros (keys' & Hkeys' & _).
    apply map_each_Ok in Hkeys'. congruence.
Qed.

(** It raises nothing but the [TypeError] of a comparison. *)
Lemma combo_count_raise a (e : exn) : combo_count a = Raise e → e = TypeError.
Proof.
  unfold combo_count. rewrite Game_show_wide. cbn [mbind result_bind].
  destruct (game_results (analyzer_game a)) as [results|]; [|done].
  destruct (map_each (sorted cell_lt) (df_values results)) as [keys|e']
    eqn:Hkeys; cbn [mbind result_bind]; [done|].
  intros [= <-]. apply map_each_raise in Hkeys as (row & _ & Hrow).
  apply sorted_raise in Hrow as (c1 & c2 & Hlt).
  by apply cell_lt_raise in Hlt.
Qed.

(** It returns on a table whose rolls can all be compared. *)
Lemma combo_count_comparable a (results : outcomes) :
  game_results (analyzer_game a) = Some results →
  Forall comparable (df_values results) →
  ∃ combos, combo_count a = Ok (Some combos).
Proof.
  intros Hres Hrows.
  destruct (map_each_total (sorted cell_lt) (df_values results)) as [keys Hk].
  { eapply Forall_impl; [exact Hrows|]. intros row Hrow.
    destruct (sorted_total cell_lt row Hrow) as (key & Hkey & _). eauto. }
  exists (value_counts keys). apply (combo_count_Ok a results); [done|].
  exists keys. split; [by apply map_each_Ok | done].
Qed.

(** The keys of combinations are the image of the rolls under sorting. *)
Lemma combo_keys_image (rows keys : list (list (option face))) :
  Forall2 (λ row key, sorted cell_lt row = Ok key) rows keys →
  keys = (λ row, match sorted cell_lt row with
                 | Ok key => key
                 | Raise _ => []
                 end) <$> rows.
Proof.
  induction 1 as [|row key rows keys Hrow _ IH]; [done|].
  rewrite fmap_cons, Hrow. by f_equal.
Qed.

(** On faces that [<] orders, the key of a roll is its faces in ascending
    order. *)
Lemma sorted_cells (lt : face → face → bool) xs :
  lt_is lt → sorted cell_lt (Some <$> xs) = Ok (Some <$> sort_by lt xs).
Proof.
  intros Hlt.
  set (clt := λ c1 c2 : option face,
                match c1, c2 with
                | Some x, Some y => lt x y
                | _, _ => false
                end).
  rewrite (sorted_agree cell_lt clt).
  - f_equal. by apply sort_by_fmap.
  - intros c1 c2 H1 H2.
    apply list_elem_of_fmap in H1 as (x & -> & _).
    apply list_elem_of_fmap in H2 as (y & -> & _).
    cbn [cell_lt]. by rewrite Hlt.
Qed.

Lemma Some_Permutation xs ys : Some <$> xs ≡ₚ Some <$> ys → xs ≡ₚ ys.
Proof.
  intros Hp. apply (omap_Permutation id) in Hp.
  by rewrite !omap_id_fmap_Some in Hp.
Qed.

Lemma same_key_iff (lt : face → face → bool) xs ys :
  lt_is lt → strict_total lt →
  sorted cell_lt (Some <$> xs) = sorted cell_lt (Some <$> ys) ↔ xs ≡ₚ ys.
Proof.
  intros Hlt Htot. rewrite !(sorted_cells lt) by done. split.
  - intros [= Heq]. apply (inj (fmap Some)) in Heq.
    by rewrite <- (sort_by_Permutation lt xs), Heq, sort_by_Permutation.
  - intros Hp. do 2 f_equal. by apply sort_by_canonical.
Qed.

Lemma filter_fmap_length {A B : Type} `{EqDecision B} (f : A → B) (k : B)
    (l : list A) :
  length (filter (λ y, y = k) (f <$> l)) = length (filter (λ x, f x = k) l).
Proof.
  induction l as [|x l IH]; [done|].
  rewrite fmap_cons, !filter_cons.
  destruct (decide (f x = k)); cbn [length]; by rewrite IH.
Qed.

Lemma filter_length_all {A : Type} (P : A → Prop) `{∀ x, Decision (P x)}
    (l : list A) :
  length (filter P l) = length l → Forall P l.
Proof.
  induction l as [|x l IH]; [constructor|].
  rewrite filter_cons. destruct (decide (P x)) as [Hx|Hx]; cbn [length].
  - intros Hlen. constructor; [done|]. apply IH. lia.
  - intros Hlen. pose proof (length_filter P l). lia.
Qed.

(** *** The narrow form *)

Lemma stack_row_full (i : Z) (ks : list Z) xs :
  Forall (λ x, isna x = false) xs →
  stack_row (LInt i) (LInt <$> ks) (Some <$> xs)
  = zip (LPair i <$> ks) (Some <$> xs).
Proof.
  unfold stack_row. intros Hxs. revert ks.
  induction Hxs as [|x xs Hx _ IH]; intros [|k ks]; try done.
  rewrite !fmap_cons. cbn [zip zip_with omap list_omap fst snd].
  rewrite Hx. f_equal. apply IH.
Qed.

Lemma narrow_rows (rolls ks : list Z) (xss : list (list face)) :
  length rolls = length xss →
  Forall (λ xs, length xs = length ks ∧ Forall (λ x, isna x = false) xs) xss →
  fst <$> concat (zip_with (λ r row, stack_row r (LInt <$> ks) row)
                    (LInt <$> rolls) ((λ xs : list face, Some <$> xs) <$> xss))
  = concat ((λ i, LPair i <$> ks) <$> rolls)
  ∧ snd <$> concat (zip_with (λ r row, stack_row r (LInt <$> ks) row)
                      (LInt <$> rolls) ((λ xs : list face, Some <$> xs) <$> xss))
    = concat ((λ xs : list face, Some <$> xs) <$> xss).
Proof.
  intros Hlen Hall. revert rolls Hlen.
  induction Hall as [|xs xss [Hxs Hna] _ IH]; intros [|i rolls] Hlen; try done.
  rewrite !fmap_cons. cbn [zip_with concat]. rewrite !fmap_app.
  destruct (IH rolls) as [IH1 IH2]; [cbn [length] in Hlen; lia|].
  rewrite IH1, IH2, stack_row_full by done.
  rewrite fst_zip, snd_zip by (rewrite !length_fmap; lia). done.
Qed.

Lemma narrow_frame_table_of (dice : list (Die face)) (xss : list (list face)) :
  Forall (λ xs, length xs = length dice ∧ Forall (λ x, isna x = false) xs)
    xss →
  narrow_frame (table_of dice xss)
  = mkDataFrame
      (concat ((λ i, LPair i <$> range (Z.of_nat (length dice)))
                 <$> range (Z.of_nat (length xss))))
      [LStr "coutcome"]
      ((λ c, [c]) <$> concat ((λ xs : list face, Some <$> xs) <$> xss)).
Proof.
  intros Hall. unfold narrow_frame, table_of. cbn [df_index df_columns df_values].
  destruct (narrow_rows (range (Z.of_nat (length xss)))
              (range (Z.of_nat (length dice))) xss) as [H1 H2].
  - by rewrite length_range, Nat2Z.id.
  - eapply Forall_impl; [exact Hall|]. intros xs [Hxs Hna]. simpl.
    by rewrite length_range, Nat2Z.id.
  - rewrite H1. f_equal.
    etransitivity; [|exact (f_equal (fmap (λ c : option face, [c])) H2)].
    by rewrite <- list_fmap_compose.
Qed.

Lemma length_concat_uniform {A : Type} (k : nat) (ls : list (list A)) :
  Forall (λ l, length l = k) ls → length (concat ls) = (length ls * k)%nat.
Proof.
  induction 1 as [|l ls Hl _ IH]; [done|].
  cbn [concat length]. rewrite length_app, IH, Hl. lia.
Qed.

End AnalyzerProperties.

(** ** The claims *)

Section Claims.

Context {face : Type} `{EqDecision face} `{PyScalar face} `{Machine}.
Variable float_of_str : string → option float.
Implicit Types (die : Die face) (self : Game face) (rs : RandomState).

(** C1, as amended.  [roll] has no check of its own on the weights: it
    divides them by their sum and leaves the rest to [np.random.choice].
    When the weights of a die that has a face sum to zero, the quotients are
    infinite or NaN and [np.random.choice] raises [ValueError].  Whatever
    the sum, a quotient that is negative makes it raise the same
    [ValueError]. *)
Theorem roll_degenerate_weights die (n : Z) rs :
  (die_df die ≠ [] → f_iszero (py_sum (die_weights die)) = true →
   roll die n rs = Raise ValueError)
  ∧ (Exists (λ w, flt (fdiv w (py_sum (die_weights die))) f_zero = true)
       (die_weights die) →
     roll die n rs = Raise ValueError).
Proof. split; [apply roll_zero_sum | apply roll_negative_quotient]. Qed.

(** C2, as amended.  [Analyzer] is refused with [ValueError] exactly when
    the argument is not an instance of the class [Game]: the test is
    [isinstance], on the type of the object and not on what it offers. *)
Theorem Analyzer_init_by_type (game : pyobj face) :
  Analyzer_init game = Raise ValueError ↔ isinstance_Game game = false.
Proof. by destruct game. Qed.

(** C3, as amended.  After a successful [play(n)] with [n >= 1] on a game
    of at least one die, the table has the rows [0 .. n-1] and the columns
    [0 .. len(dice)-1], and every cell holds a face of the die of its
    column. *)
Theorem play_table_shape self (n_rolls : Z) rs g' rs' :
  0 < n_rolls → game_dice self ≠ [] →
  play self n_rolls rs = Ok (g', rs') →
  ∃ results,
    game_results g' = Some results
    ∧ df_index results = LInt <$> range n_rolls
    ∧ df_columns results = LInt <$> range (Z.of_nat (length (game_dice self)))
    ∧ Z.of_nat (df_len results) = n_rolls
    ∧ df_width results = length (game_dice self)
    ∧ length (df_values results) = df_len results
    ∧ Forall (λ row,
                Forall2 (λ die c, ∃ f, c = Some f ∧ f ∈ die_faces die)
                  (game_dice self) row)
        (df_values results).
Proof.
  intros Hn Hdice Hplay.
  apply play_spec in Hplay as (xss & Hlen & Hxss & _ & Hres).
  rewrite bool_decide_eq_false_2 in Hres.
  2: { intros [-> | Hd]; [cbn [length] in Hlen; lia | done]. }
  eexists. split; [exact Hres|].
  unfold table_of, df_len, df_width. cbn [df_index df_columns df_values].
  rewrite Hlen, Z2Nat.id by lia.
  rewrite !length_fmap, !length_range, Nat2Z.id, Z2Nat.id by lia.
  repeat split; try done.
  apply Forall_fmap. eapply Forall_impl; [exact Hxss|]. intros xs Hxs. simpl.
  apply Forall2_fmap_r. eapply Forall2_impl; [exact Hxs|]. eauto.
Qed.

(** A game that was never played answers [None] to [show] whatever the
    form, valid or not: the test for an absent table comes before the test
    of the form. *)
Lemma Game_show_unplayed (dice : list (Die face)) (form : pyval) :
  Game_show (Game_init dice) form = Ok None.
Proof. reflexivity. Qed.

(** Once played, a form other than ['wide'] and ['narrow'] is refused. *)
Lemma show_played_invalid_form self (results : outcomes) (form : pyval) :
  game_results self = Some results →
  py_eq_str form "wide" = false → py_eq_str form "narrow" = false →
  Game_show self form = Raise ValueError.
Proof. intros Hres Hw Hn. unfold Game_show. by rewrite Hres, Hw, Hn. Qed.

(** The table that [play] stores has as many rows of cells as it has row
    labels. *)
Lemma played_rows (dice : list (Die face)) (xss : list (list face)) :
  length (df_index (if bool_decide (xss = [] ∨ dice = [])
                    then mkDataFrame [] [] [] else table_of dice xss))
  = length (df_values (if bool_decide (xss = [] ∨ dice = [])
                       then mkDataFrame [] [] [] else table_of dice xss)).
Proof.
  case_bool_decide; [done|]. unfold table_of. cbn [df_index df_values].
  by rewrite !length_fmap, length_range, Nat2Z.id.
Qed.

Lemma played_len (dice : list (Die face)) (xss : list (list face)) (n : Z) :
  length xss = Z.to_nat n → dice ≠ [] → 0 ≤ n →
  Z.of_nat (df_len (if bool_decide (xss = [] ∨ dice = [])
                    then mkDataFrame [] [] [] else table_of dice xss)) = n.
Proof.
  intros Hlen Hd Hn. case_bool_decide as Hempty.
  - destruct Hempty as [-> | Hd']; [|done]. cbn [length] in Hlen.
    unfold df_len. cbn [df_index length]. lia.
  - unfold table_of, df_len. cbn [df_index].
    rewrite length_fmap, length_range, Nat2Z.id. lia.
Qed.


(** C6, as amended.  After [play], the counts of [permutation_count] sum to
    the number of rows of the table of outcomes, which is [n_rolls] when the
    game has at least one die, and so do the counts of [combo_count]
    whenever it returns; it returns when the faces of every roll can be
    compared, and raises nothing but [TypeError]. *)
Theorem count_sums self (n_rolls : Z) rs g' rs' :
  play self n_rolls rs = Ok (g', rs') →
  ∃ results perms,
    game_results g' = Some results
    ∧ permutation_count (mkAnalyzer g') = Ok (Some perms)
    ∧ count_sum perms = Z.of_nat (df_len results)
    ∧ (∀ combos, combo_count (mkAnalyzer g') = Ok (Some combos) →
                 count_sum combos = Z.of_nat (df_len results))
    ∧ (Forall comparable (df_values results) →
       ∃ combos, combo_count (mkAnalyzer g') = Ok (Some combos))
    ∧ (∀ e, combo_count (mkAnalyzer g') = Raise e → e = TypeError)
    ∧ (game_dice self ≠ [] → 0 ≤ n_rolls → Z.of_nat (df_len results) = n_rolls).
Proof.
  intros Hplay. apply play_spec in Hplay as (xss & Hlen & _ & _ & Hres).
  eexists. eexists. split; [exact Hres|].
  split; [by apply permutation_count_played|].
  rewrite count_sum_value_counts. unfold df_len at 1 2. rewrite played_rows.
  split; [done|]. split; [|split; [|split]].
  - intros combos Hc.
    apply (combo_count_Ok (mkAnalyzer g') _ combos Hres) in Hc
      as (keys & Hkeys & ->).
    by rewrite count_sum_value_counts, <- (Forall2_length _ _ _ Hkeys).
  - by apply combo_count_comparable.
  - apply combo_count_raise.
  - intros Hd Hn. by apply played_len.
Qed.

(** C7, as amended.  Over one table of outcomes, [permutation_count] has at
    least as many keys as [combo_count] whenever [combo_count] returns, the
    keys of each being distinct; it returns when the faces of every roll can
    be compared, and raises nothing but [TypeError]. *)
Theorem permutation_keys_ge_combo_keys (a : Analyzer face) (results : outcomes) :
  game_results (analyzer_game a) = Some results →
  ∃ perms,
    permutation_count a = Ok (Some perms)
    ∧ NoDup (fst <$> perms)
    ∧ (∀ combos, combo_count a = Ok (Some combos) →
                 NoDup (fst <$> combos) ∧ (length combos ≤ length perms)%nat)
    ∧ (Forall comparable (df_values results) →
       ∃ combos, combo_count a = Ok (Some combos))
    ∧ (∀ e, combo_count a = Raise e → e = TypeError).
Proof.
  intros Hres. eexists. split; [by apply permutation_count_played|].
  split; [apply NoDup_value_counts|]. split; [|split].
  - intros combos Hc.
    apply (combo_count_Ok a _ combos Hres) in Hc as (keys & Hkeys & ->).
    split; [apply NoDup_value_counts|].
    rewrite !length_value_counts, (combo_keys_image _ _ Hkeys).
    apply length_unique_fmap.
  - by apply combo_count_comparable.
  - apply combo_count_raise.
Qed.

(** C8, as amended.  Whenever [roll(n)] returns, it returns a list of
    exactly [n] values, each of them a face of the die.  It returns when
    the die has a face, the weights divided by their sum pass the checks
    of [np.random.choice] on probabilities and their running sums, divided
    by the last, end in 1.0, and the machine has room for [n] samples. *)
Theorem roll_returns_faces die (n : Z) rs :
  (∀ r rs', roll die n rs = Ok (r, rs') →
            0 ≤ n ∧ Z.of_nat (length r) = n
            ∧ Forall (λ x, x ∈ die_faces die) r)
  ∧ (die_df die ≠ [] → proper (normalised (die_weights die)) = true →
     np_empty_error n = None →
     ∃ r rs', roll die n rs = Ok (r, rs')).
Proof.
  split.
  - intros r rs' Hroll. apply roll_Ok in Hroll as (Hn & Hlen & Hin).
    split; [done|]. split; [lia|done].
  - intros Hne Hproper Hroom.
    destruct (choice_proper (die_faces die) n (normalised (die_weights die)) rs)
      as [r Hr]; try done.
    + unfold normalised, die_faces, die_weights. by rewrite !length_fmap.
    + unfold normalised, die_weights. destruct (die_df die); done.
    + exists r, (advance rs (Z.to_nat n)). exact Hr.
Qed.


(** C10.  [play(0)] succeeds on every game and leaves it played: [show]
    returns a table without rows where a game never played returns [None],
    [jackpot] returns 0, and [face_counts_per_roll], [combo_count] and
    [permutation_count] return tables without rows. *)
Theorem play_zero_is_played self rs :
  ∃ g' (empty : outcomes),
    play self 0 rs = Ok (g', rs)
    ∧ Game_show (Game_init (game_dice self)) (PyStr "wide") = Ok None
    ∧ Game_show g' (PyStr "wide") = Ok (Some empty) ∧ df_len empty = 0%nat
    ∧ (∃ narrow, Game_show g' (PyStr "narrow") = Ok (Some narrow)
                 ∧ df_len narrow = 0%nat)
    ∧ jackpot (mkAnalyzer g') = Ok 0
    ∧ (∃ face_counts,
         face_counts_per_roll (mkAnalyzer g') = Ok (Some face_counts)
         ∧ df_len face_counts = 0%nat ∧ df_values face_counts = [])
    ∧ combo_count (mkAnalyzer g') = Ok (Some [])
    ∧ permutation_count (mkAnalyzer g') = Ok (Some []).
Proof.
  exists (mkGame (game_dice self) (Some (mkDataFrame [] [] []))).
  exists (mkDataFrame [] [] []).
  repeat split; try reflexivity.
  - eexists. split; reflexivity.
  - eexists. split.
    + by apply face_counts_per_roll_played.
    + done.
Qed.

End Claims.

(** ** More on Die *)

Section DieMore.

Context {face : Type} `{EqDecision face} `{Machine}.
Variable float_of_str : string → option float.
Implicit Types (die : Die face) (f : face) (rs : RandomState).

(** X1.  A die is made of every array of one dimension and distinct faces:
    its faces are those of the array, in the same order, and every weight
    is 1.0. *)
Theorem Die_init_fresh (a : list face) :
  NoDup a →
  ∃ die, Die_init (NdArray a) = Ok die
         ∧ die_faces die = a
         ∧ die_weights die = replicate (length a) f_one
         ∧ ∀ f, f ∈ a → loc_get (Die_show die) f = Some f_one.
Proof.
  intros Ha. unfold Die_init.
  rewrite bool_decide_eq_false_2
    by (intros Hne; apply Hne; symmetry; by apply length_unique_NoDup).
  eexists. split; [done|].
  unfold die_faces, die_weights, Die_show. cbn [die_df].
  rewrite <- !list_fmap_compose. split; [apply list_fmap_id|]. split.
  - clear Ha. induction a as [|x a IH]; [done|].
    rewrite fmap_cons. cbn [length replicate]. by rewrite IH.
  - clear Ha. intros f Hf. induction a as [|x a IH]; [by apply elem_of_nil in Hf|].
    rewrite fmap_cons. cbn [loc_get].
    destruct (decide (x = f)) as [|Hne]; [done|].
    apply IH. apply elem_of_cons in Hf as [->|Hf]; done.
Qed.



(** X4.  Of two weights given to one face the second stands: the die is
    the one the second [change_weight] alone would give. *)
Theorem change_weight_overwrites die die1 f (weight1 weight2 : pyval) :
  change_weight float_of_str die f weight1 = Ok die1 →
  change_weight float_of_str die1 f weight2
  = change_weight float_of_str die f weight2.
Proof.
  unfold change_weight. case_bool_decide as Hf; [done|].
  destruct (py_float float_of_str weight1) as [w1|[]]; try done.
  intros [= <-].
  rewrite (loc_set_faces (die_df die) f w1 : die_faces (mkDie _) = die_faces die).
  rewrite bool_decide_eq_false_2 by tauto. cbn [die_df].
  destruct (py_float float_of_str weight2) as [w2|]; [|done].
  by rewrite loc_set_loc_set.
Qed.

(** X5.  Weights given to two different faces can be given in either
    order. *)
Theorem change_weight_commutes die die1 die2 f1 f2 (weight1 weight2 : pyval) :
  f1 ≠ f2 →
  change_weight float_of_str die f1 weight1 = Ok die1 →
  change_weight float_of_str die f2 weight2 = Ok die2 →
  ∃ die', change_weight float_of_str die1 f2 weight2 = Ok die'
          ∧ change_weight float_of_str die2 f1 weight1 = Ok die'.
Proof.
  intros Hne. unfold change_weight.
  case_bool_decide as Hf1; [done|]. case_bool_decide as Hf2; [done|].
  destruct (py_float float_of_str weight1) as [w1|[]]; try done.
  destruct (py_float float_of_str weight2) as [w2|[]]; try done.
  intros [= <-] [= <-].
  rewrite (loc_set_faces (die_df die) f1 w1 : die_faces (mkDie _) = die_faces die).
  rewrite (loc_set_faces (die_df die) f2 w2 : die_faces (mkDie _) = die_faces die).
  rewrite !bool_decide_eq_false_2 by tauto. cbn [die_df].
  eexists. split; [done|]. by rewrite loc_set_comm.
Qed.

(** X6.  [change_weight] takes a weight that is infinite or NaN, such as
    [float('inf')] or ['nan'], and after it no roll of the die returns:
    [np.random.choice] raises [ValueError], whatever the count and the
    other weights. *)
Theorem nonfinite_weight_unrollable die die' f (weight : pyval) (w : float)
    (n : Z) rs :
  py_float float_of_str weight = Ok w → f_isfinite w = false →
  change_weight float_of_str die f weight = Ok die' →
  roll die' n rs = Raise ValueError.
Proof.
  intros Hw Hinf. unfold change_weight.
  case_bool_decide as Hf; [done|]. rewrite Hw. intros [= <-].
  assert (Hin : f ∈ die_faces die).
  { destruct (decide (f ∈ die_faces die)); [done|tauto]. }
  apply roll_nonfinite_weight. apply Exists_exists. exists w.
  split; [|done]. unfold die_weights. cbn [die_df].
  apply list_elem_of_fmap. exists (f, w). split; [done|].
  by apply loc_set_elem_of.
Qed.

(** X7.  Rolling [n] times and then [m] times is rolling [n + m] times,
    where the machine has room for [n + m] samples at once: the faces of
    the two rolls, in that order, and the same generator afterwards, which
    each roll advances by the number of its draws. *)
Theorem roll_then_roll die (n m : Z) rs r1 rs1 r2 rs2 :
  roll die n rs = Ok (r1, rs1) → roll die m rs1 = Ok (r2, rs2) →
  np_empty_error (n + m) = None →
  roll die (n + m) rs = Ok (r1 ++ r2, rs2)
  ∧ rs1 = advance rs (Z.to_nat n)
  ∧ rs2 = advance rs (Z.to_nat (n + m)).
Proof.
  intros H1 H2 Hroom. unfold roll in *.
  apply choice_Ok_inv in H1 as (Hn & _ & Hlen & Hnan & Hneg & Hoff & -> & Hm1).
  apply choice_Ok_inv in H2 as (Hm & _ & _ & _ & _ & _ & -> & Hm2).
  rewrite advance_advance, <- Z2Nat.inj_add by done.
  split; [|done].
  apply choice_Ok_intro; try done.
  - intros Hnil. rewrite Hnil in Hoff. done.
  - rewrite Z2Nat.inj_add, random_doubles_app, fmap_app by done.
    apply mapM_Some_2, Forall2_app; by apply mapM_Some_1.
Qed.

(** X8.  A face whose weight is zero never comes up: on a die of distinct
    faces, no roll returns it. *)
Theorem roll_never_draws_zero_weight die (n : Z) rs r rs' (f : face)
    (w : float) :
  NoDup (die_faces die) → (f, w) ∈ die_df die → f_iszero w = true →
  roll die n rs = Ok (r, rs') → f ∉ r.
Proof.
  intros Hnd Hin Hw Hroll. apply list_elem_of_lookup_1 in Hin as [i Hi].
  by apply (roll_avoids_zero_weight die n rs r rs' i f w).
Qed.

(** X9.  When every face but one has weight zero, every roll shows that
    one face, as many times as asked. *)
Theorem roll_single_weight die (n : Z) rs r rs' (f : face) :
  NoDup (die_faces die) →
  (∀ f' w, (f', w) ∈ die_df die → f' ≠ f → f_iszero w = true) →
  roll die n rs = Ok (r, rs') →
  r = replicate (Z.to_nat n) f.
Proof.
  intros Hnd Hothers Hroll.
  pose proof (roll_Ok _ _ _ _ _ Hroll) as (_ & Hlen & Hall).
  rewrite <- Hlen. symmetry. apply replicate_as_Forall_2; [done|].
  apply Forall_forall. intros x Hx.
  destruct (decide (x = f)) as [|Hne]; [done|]. exfalso.
  pose proof (proj1 (Forall_forall _ _) Hall x Hx) as Hface.
  unfold die_faces in Hface. apply list_elem_of_fmap in Hface as ([f' w] & -> & Hfw).
  apply list_elem_of_lookup_1 in Hfw as [i Hi].
  apply (roll_avoids_zero_weight die n rs r rs' i f' w); try done.
  apply (Hothers f' w); [|done]. by apply list_elem_of_lookup_2 in Hi.
Qed.

(** X21.  A face whose weight has been set to zero is never rolled
    afterwards. *)
Theorem zero_weight_after_change die die' (f : face) (weight : pyval)
    (w : float) (n : Z) rs r rs' :
  NoDup (die_faces die) →
  py_float float_of_str weight = Ok w → f_iszero w = true →
  change_weight float_of_str die f weight = Ok die' →
  roll die' n rs = Ok (r, rs') →
  f ∉ r.
Proof.
  intros Hnd Hw Hw0. unfold change_weight.
  case_bool_decide as Hf; [done|]. rewrite Hw. intros [= <-] Hroll.
  assert (Hin : f ∈ die_faces die).
  { destruct (decide (f ∈ die_faces die)); [done|tauto]. }
  pose proof (loc_set_elem_of (die_df die) f w Hin) as Hfw.
  apply list_elem_of_lookup_1 in Hfw as [i Hi].
  apply (roll_avoids_zero_weight (mkDie (loc_set (die_df die) f w))
           n rs r rs' i f w); try done.
  unfold die_faces. cbn [die_df]. by rewrite loc_set_faces.
Qed.

(** The probabilities of a die of up to 100 faces of weight 1.0 pass the
    checks of [choice], and their distribution ends in 1.0. *)
Lemma fresh_proper (k : nat) :
  (1 ≤ k ≤ 100)%nat → proper (normalised (replicate k f_one)) = true.
Proof.
  intros Hk.
  assert (Hall : forallb (λ k, proper (normalised (replicate k f_one)))
                   (seq 1 100) = true) by (vm_compute; reflexivity).
  apply (proj1 (forallb_forall _ _) Hall). apply in_seq. lia.
Qed.

(** X22.  A die just made from an array of 1 to 100 faces can be rolled:
    [roll(n)] returns [n] of its faces for every [n] for which the machine
    has room. *)
Theorem fresh_die_rolls (a : list face) die (n : Z) rs :
  Die_init (NdArray a) = Ok die → a ≠ [] → (length a ≤ 100)%nat →
  np_empty_error n = None →
  ∃ r rs', roll die n rs = Ok (r, rs')
           ∧ Z.of_nat (length r) = n ∧ Forall (λ x, x ∈ a) r.
Proof.
  unfold Die_init. case_bool_decide; [done|]. intros [= <-] Ha Hlen Hroom.
  set (die := mkDie ((λ f : face, (f, f_one)) <$> a)).
  assert (Hfaces : die_faces die = a).
  { unfold die_faces, die. cbn [die_df].
    by rewrite <- list_fmap_compose, list_fmap_id. }
  assert (Hweights : die_weights die = replicate (length a) f_one).
  { unfold die_weights, die. cbn [die_df]. rewrite <- list_fmap_compose.
    clear. induction a as [|x a IH]; [done|].
    rewrite fmap_cons. cbn [length replicate]. by rewrite IH. }
  destruct (choice_proper (die_faces die) n (normalised (die_weights die)) rs)
    as [r Hr]; try done.
  - unfold normalised, die_faces, die_weights. by rewrite !length_fmap.
  - rewrite Hweights. destruct a; done.
  - rewrite Hweights. apply fresh_proper. destruct a; [done|].
    cbn [length] in *. lia.
  - exists r, (advance rs (Z.to_nat n)). split; [exact Hr|].
    apply choice_Ok in Hr as (Hn & Hl & Hin).
    split; [lia|]. by rewrite <- Hfaces.
Qed.

End DieMore.

(** ** More on Game *)

Section GameMore.

Context {face : Type} `{EqDecision face} `{PyScalar face} `{Machine}.
Implicit Types (dice : list (Die face)) (self : Game face) (rs : RandomState).

Lemma play_die_raise dice (i : nat) (acc : list (Z * face)) rs (e : exn) :
  (i < length dice)%nat →
  play_die dice (Z.of_nat i) (acc, rs) = Raise e →
  ∃ die, die ∈ dice ∧ roll die 1 rs = Raise e.
Proof.
  intros Hi. unfold play_die. rewrite Nat2Z.id.
  destruct (lookup_lt_is_Some_2 dice i Hi) as [die Hdie]. rewrite Hdie.
  destruct (roll die 1 rs) as [[r rs1]|e'] eqn:Hroll.
  - destruct (roll_once _ _ _ _ Hroll) as (x & -> & _). done.
  - cbn [mbind result_bind]. intros [= <-]. exists die.
    split; [by apply list_elem_of_lookup_2 in Hdie | done].
Qed.

Lemma play_dice_raise dice (m j : nat) (acc : list (Z * face)) rs (e : exn) :
  (j + m = length dice)%nat →
  for_each (Z.of_nat <$> seq j m) (play_die dice) (acc, rs) = Raise e →
  ∃ die k, die ∈ dice ∧ roll die 1 (advance rs k) = Raise e.
Proof.
  revert j acc rs. induction m as [|m IH]; intros j acc rs Hjm; [done|].
  cbn [seq]. rewrite fmap_cons. cbn [for_each].
  destruct (play_die dice (Z.of_nat j) (acc, rs)) as [[acc1 rs1]|e'] eqn:Hbody;
    cbn [mbind result_bind].
  - apply play_die_trace in Hbody as (_ & _ & _ & _ & -> & _).
    intros Hrun. apply IH in Hrun as (die & k & Hdie & Hroll); [|lia].
    exists die, (1 + k)%nat. by rewrite <- advance_advance.
  - intros [= <-]. apply play_die_raise in Hbody as (die & Hdie & Hroll);
      [|lia].
    exists die, 0%nat. by rewrite advance_0.
Qed.

Lemma play_rolls_raise dice (rolls : list Z)
    (acc : list (Z * list (Z * face))) rs (e : exn) :
  for_each rolls (play_roll dice) (acc, rs) = Raise e →
  ∃ die k, die ∈ dice ∧ roll die 1 (advance rs k) = Raise e.
Proof.
  revert acc rs. induction rolls as [|roll_no rolls IH]; intros acc rs; [done|].
  cbn [for_each].
  destruct (play_roll dice roll_no (acc, rs)) as [[acc1 rs1]|e'] eqn:Hroll;
    cbn [mbind result_bind].
  - apply play_roll_trace in Hroll as (-> & _).
    intros Hrun. apply IH in Hrun as (die & k & Hdie & Hr).
    exists die, (length dice + k)%nat. by rewrite <- advance_advance.
  - intros [= <-]. unfold play_roll in Hroll.
    destruct (for_each _ _ _) as [[roll_results rs1]|e2] eqn:Hrun; [done|].
    cbn [mbind result_bind] in Hroll. injection Hroll as ->.
    unfold range in Hrun. rewrite Nat2Z.id in Hrun.
    by apply (play_dice_raise dice _ 0%nat) in Hrun.
Qed.



(** X23.  [play] keeps the dice and replaces the table: what a second play
    does depends on the dice and on the generator, not on the table of the
    first. *)
Theorem play_replaces_table self (n m : Z) rs g1 rs1 :
  play self n rs = Ok (g1, rs1) →
  game_dice g1 = game_dice self ∧ play g1 m rs1 = play self m rs1.
Proof.
  unfold play at 1.
  destruct (for_each _ _ _) as [[results rs2]|]; [|done].
  cbn [mbind result_bind]. intros [= <- <-]. by split.
Qed.

End GameMore.

(** ** More on Analyzer *)

Section AnalyzerMore.

Context {face : Type} `{EqDecision face} `{PyScalar face} `{Machine}.
Implicit Types (a : Analyzer face) (self : Game face) (rs : RandomState).
Implicit Types (xs ys : list face).


(** X14.  After [play], [jackpot] lies between 0 and the number of rolls,
    and in a game of a single die none of whose faces is NaN every roll is
    a jackpot. *)
Theorem jackpot_after_play self (n_rolls : Z) rs g' rs' :
  play self n_rolls rs = Ok (g', rs') →
  ∃ j, jackpot (mkAnalyzer g') = Ok j
       ∧ 0 ≤ j ≤ Z.max 0 n_rolls
       ∧ (length (game_dice self) = 1%nat → nan_free (game_dice self) →
          j = Z.max 0 n_rolls).
Proof.
  intros Hplay. apply play_spec in Hplay as (xss & Hlen & Hxss & _ & Hres).
  eexists. split; [by apply (jackpot_played (mkAnalyzer g') _ Hres)|].
  case_bool_decide as Hempty.
  - cbn [df_values]. rewrite filter_nil. cbn [length]. split; [lia|].
    intros Hone _. destruct Hempty as [-> | Hd].
    + cbn [length] in Hlen. lia.
    + rewrite Hd in Hone. done.
  - set (rows := df_values (table_of (game_dice self) xss)).
    assert (Hrows : length rows = length xss).
    { unfold rows, table_of. cbn [df_values]. by rewrite length_fmap. }
    fold rows.
    pose proof (length_filter (λ row : list cell, nunique row = 1%nat) rows)
      as Hle.
    split; [unfold cell in *; lia|].
    intros Hone Hfree. rewrite filter_all; [unfold cell in *; lia|].
    unfold rows, table_of. cbn [df_values].
    apply Forall_fmap, Forall_forall. intros xs Hxs. simpl.
    pose proof (proj1 (Forall_forall _ _) Hxss xs Hxs) as Hrow.
    pose proof (drawn_from_nan_free _ _ Hfree Hrow) as Hna.
    apply Forall2_length in Hrow. rewrite Hone in Hrow.
    destruct xs as [|x [|y xs]]; try done.
    by rewrite nunique_faces.
Qed.

(** X15.  An analyzer of a game that was never played answers without
    raising: [jackpot] is 0, and [face_counts_per_roll], [combo_count] and
    [permutation_count] are [None]. *)
Theorem analyzer_of_unplayed_game (dice : list (Die face)) :
  ∃ a, Analyzer_init (PyGame (Game_init dice)) = Ok a
       ∧ jackpot a = Ok 0
       ∧ face_counts_per_roll a = Ok None
       ∧ combo_count a = Ok None
       ∧ permutation_count a = Ok None.
Proof. eexists. by repeat split. Qed.



Lemma counts_positive {A : Type} `{EqDecision A} (l : list A) :
  Forall (λ kc : A * Z, 1 ≤ kc.2) (value_counts l).
Proof.
  apply Forall_forall. intros [k c] Hkc. cbn [snd].
  apply value_counts_entries in Hkc as [Hk ->]. unfold occurrences.
  assert (Hin : k ∈ filter (λ x, x = k) l) by (by apply list_elem_of_filter).
  destruct (filter (λ x, x = k) l); [by apply elem_of_nil in Hin|].
  cbn [length]. lia.
Qed.

(** The keys of a table without missing cells, on faces that [<] orders. *)
Lemma ordered_keys (lt : face → face → bool) (rows : list (list cell)) :
  lt_is lt → Forall (Forall is_Some) rows →
  Forall2 (λ row key, sorted cell_lt row = Ok key) rows
    ((λ row, Some <$> sort_by lt (omap id row)) <$> rows).
Proof.
  intros Hlt Hrows. apply Forall2_fmap_r, Forall_Forall2_diag.
  eapply Forall_impl; [exact Hrows|]. intros row Hrow. simpl.
  rewrite <- (omap_id_Some row Hrow) at 1. by apply sorted_cells.
Qed.

Lemma key_count (rows keys : list (list cell)) (key : list cell) :
  Forall2 (λ row k, sorted cell_lt row = Ok k) rows keys →
  length (filter (λ k, k = key) keys)
  = length (filter (λ row, sorted cell_lt row = Ok key) rows).
Proof.
  induction 1 as [|row k rows keys Hrow _ IH]; [done|].
  rewrite !filter_cons, Hrow.
  destruct (decide (k = key)) as [->|Hne].
  - rewrite decide_True by done. cbn [length]. by rewrite IH.
  - rewrite decide_False by congruence. done.
Qed.

Lemma present_is_Some (rows : list (list cell)) :
  Forall (Forall present) rows → Forall (Forall is_Some) rows.
Proof.
  intros Hrows. eapply Forall_impl; [exact Hrows|]. intros row Hrow.
  eapply Forall_impl; [exact Hrow|]. by intros [x|].
Qed.




Lemma one_face_counts (dice : list (Die face)) xs :
  dice ≠ [] → drawn_from dice xs →
  one_face (Some <$> xs)
  ↔ Z.of_nat (length dice)
    ∈ ((λ f, count_face f (Some <$> xs)) <$> all_faces dice).
Proof.
  intros Hd Hxs. pose proof (Forall2_length _ _ _ Hxs) as Hlen.
  rewrite one_face_faces. split.
  - intros (f & Hna & Hne & Hall). apply list_elem_of_fmap. exists f. split.
    + rewrite count_face_Some, Hlen. do 2 f_equal. symmetry.
      rewrite (filter_all (λ y, isna y = false)).
      * by apply filter_all.
      * eapply Forall_impl; [exact Hall|]. by intros y ->.
    + destruct xs as [|x xs]; [done|]. apply Forall_cons in Hall as [<- _].
      apply (drawn_from_all_faces dice (x :: xs)); [done|].
      apply list_elem_of_here.
  - intros Hin. apply list_elem_of_fmap in Hin as (f & Hcount & _).
    rewrite count_face_Some, Hlen in Hcount. apply Nat2Z.inj in Hcount.
    pose proof (length_filter (λ y, y = f) (filter (λ y, isna y = false) xs))
      as Hle1.
    pose proof (length_filter (λ y, isna y = false) xs) as Hle2.
    assert (Hna : Forall (λ y, isna y = false) xs).
    { apply (filter_length_all (λ y, isna y = false)). lia. }
    rewrite (filter_all (λ y, isna y = false)) in Hcount by done.
    symmetry in Hcount. apply (filter_length_all (λ y, y = f)) in Hcount.
    assert (Hne : xs ≠ []).
    { destruct xs as [|x xs]; [|done]. destruct dice; [done|].
      cbn [length] in Hlen. lia. }
    exists f. split; [|done].
    destruct xs as [|x xs]; [done|].
    apply Forall_cons in Hcount as [-> _].
    by apply Forall_cons in Hna as [Hx _].
Qed.


End AnalyzerMore.

(** ** Facts about the sample objects *)

Module SampleFacts.

Import Samples.

Lemma played_fair :
  play (Game_init [fair; fair]) 3 rs0
  = Ok (mkGame [fair; fair]
          (Some (mkDataFrame (LInt <$> range 3) (LInt <$> range 2)
                   [[Some 1; Some 1]; [Some 2; Some 2]; [Some 1; Some 2]])),
        advance rs0 6).
Proof. vm_compute. reflexivity. Qed.

Lemma nan_free_fair : nan_free [fair; fair].
Proof. repeat constructor. Qed.

Lemma comparable_Z (row : list (option Z)) : comparable row.
Proof.
  intros [a|] [b|] _ _; cbn [cell_lt lt_nan py_lt Z_scalar]; by eexists.
Qed.

Lemma forced_comparable :
  Forall comparable
    (df_values (mkDataFrame (LInt <$> range 5) (LInt <$> range 2)
                  ((λ x : Z, [Some x; Some x]) <$> [1; 2; 3; 4; 5]))).
Proof. apply Forall_forall. intros row _. apply comparable_Z. Qed.

Lemma NoDup_12 : NoDup [1; 2].
Proof. apply (NoDup_fmap_1 Z.to_nat). vm_compute. apply (NoDup_seq 1 2). Qed.

Lemma fair_has_1 : 1 ∈ die_faces fair.
Proof. apply list_elem_of_here. Qed.

Lemma fair_has_2 : 2 ∈ die_faces fair.
Proof. apply list_elem_of_further, list_elem_of_here. Qed.

Lemma Zltb_strict_total : strict_total Z.ltb.
Proof.
  split.
  - intros a. apply Z.ltb_irrefl.
  - intros a b c Hab Hbc. apply Z.ltb_lt in Hab, Hbc. apply Z.ltb_lt. lia.
  - intros a b Hab Hba. apply Z.ltb_ge in Hab, Hba. lia.
Qed.

Lemma Zltb_is : lt_is Z.ltb.
Proof. intros x y. reflexivity. Qed.

Lemma NoDup_123 : NoDup [1; 2; 3].
Proof. apply (NoDup_fmap_1 Z.to_nat). vm_compute. apply (NoDup_seq 1 3). Qed.

Lemma NoDup_loaded : NoDup (die_faces loaded).
Proof. exact NoDup_123. Qed.

Lemma loaded_others :
  ∀ (f' : Z) (w : float), (f', w) ∈ die_df loaded → f' ≠ 2 →
                          f_iszero w = true.
Proof.
  intros f' w Hin Hne. unfold loaded in Hin. cbn [die_df] in Hin.
  repeat (apply elem_of_cons in Hin as [[= -> ->]|Hin]; [done || reflexivity|]).
  by apply elem_of_nil in Hin.
Qed.

Lemma forced_present :
  Forall (Forall present)
    (df_values (mkDataFrame (LInt <$> range 5) (LInt <$> range 2)
                  ((λ x : Z, [Some x; Some x]) <$> [1; 2; 3; 4; 5]))).
Proof. repeat constructor. Qed.

Lemma played_three :
  play (Game_init [three]) 4 rs0
  = Ok (mkGame [three]
          (Some (mkDataFrame (LInt <$> range 4) (LInt <$> range 1)
                   [[Some 1]; [Some 1]; [Some 2]; [Some 3]])),
        advance rs0 4).
Proof. vm_compute. reflexivity. Qed.

Lemma nan_free_three : nan_free [three].
Proof. repeat constructor. Qed.

End SampleFacts.

(** ** The claims on the sample objects *)

Module Checks.

Import Samples SampleFacts.

(** C1 fails as stated: the weights of [negative] sum to -2, and [roll]
    returns five faces without raising anything. *)
Lemma roll_negative_sum_returns :
  flt (py_sum (die_weights negative)) f_zero = true
  ∧ (∃ rs', roll negative 5 rs0 = Ok ([1; 1; 2; 2; 1], rs'))
  ∧ ∀ e, roll negative 5 rs0 ≠ Raise e.
Proof.
  split; [vm_compute; reflexivity|]. split.
  - eexists. vm_compute. reflexivity.
  - intros e He. vm_compute in He. discriminate.
Qed.

Lemma roll_degenerate_weights_witness :
  (die_df weightless ≠ []
   ∧ f_iszero (py_sum (die_weights weightless)) = true
   ∧ roll weightless 1 rs0 = Raise ValueError)
  ∧ (Exists (λ w, flt (fdiv w (py_sum (die_weights sinking))) f_zero = true)
       (die_weights sinking)
     ∧ roll sinking 1 rs0 = Raise ValueError).
Proof.
  assert (H0 : die_df weightless ≠ []) by discriminate.
  assert (H1 : f_iszero (py_sum (die_weights weightless)) = true)
    by (vm_compute; reflexivity).
  assert (H2 : Exists
                 (λ w, flt (fdiv w (py_sum (die_weights sinking))) f_zero = true)
                 (die_weights sinking)).
  { apply Exists_cons_hd. vm_compute. reflexivity. }
  split; [split; [exact H0|split; [exact H1|]]|split; [exact H2|]].
  - exact (proj1 (roll_degenerate_weights weightless 1 rs0) H0 H1).
  - exact (proj2 (roll_degenerate_weights sinking 1 rs0) H2).
Defined.

(** A negative sum under a positive weight need not make [roll] raise
    either: the first weight of [faint] is positive and the sum is
    negative, and the quotient is too small for a double and comes out as
    -0.0, which is not below zero. *)
Lemma roll_faint_returns :
  flt (py_sum (die_weights faint)) f_zero = true
  ∧ Exists (λ w, flt f_zero w = true) (die_weights faint)
  ∧ normalised (die_weights faint) = [S754_zero true; f_one]
  ∧ ∃ rs', roll faint 3 rs0 = Ok ([2; 2; 2], rs').
Proof.
  split; [vm_compute; reflexivity|]. split.
  - apply Exists_cons_hd. vm_compute. reflexivity.
  - split; [vm_compute; reflexivity|]. eexists. vm_compute. reflexivity.
Qed.

(** C2 fails as stated: [duck] offers [show] and [_results], and is
    refused. *)
Lemma Analyzer_init_refuses_duck :
  Game_contract duck ∧ Analyzer_init duck = Raise ValueError.
Proof.
  split; [|reflexivity]. split.
  - do 3 apply list_elem_of_further. apply list_elem_of_here.
  - apply list_elem_of_further, list_elem_of_here.
Qed.

(** C3 fails as stated: after [play(0)] on two dice the table has no
    column. *)
Lemma play_zero_rolls_no_columns :
  ∃ g' rs' results,
    play (Game_init [fair; fair]) 0 rs0 = Ok (g', rs')
    ∧ game_results g' = Some results
    ∧ df_width results = 0%nat
    ∧ length (game_dice g') = 2%nat
    ∧ df_width results ≠ length (game_dice g').
Proof. do 3 eexists. repeat split. discriminate. Qed.

Lemma play_table_shape_witness :
  ∃ g' rs',
    0 < 3 ∧ game_dice (Game_init [fair; fair]) ≠ []
    ∧ play (Game_init [fair; fair]) 3 rs0 = Ok (g', rs')
    ∧ ∃ results,
        game_results g' = Some results
        ∧ df_index results = LInt <$> range 3
        ∧ df_columns results = LInt <$> range (Z.of_nat 2)
        ∧ Z.of_nat (df_len results) = 3
        ∧ df_width results = 2%nat
        ∧ length (df_values results) = df_len results
        ∧ Forall (λ row,
                    Forall2 (λ die c, ∃ f, c = Some f ∧ f ∈ die_faces die)
                      [fair; fair] row)
            (df_values results).
Proof.
  assert (Hn : 0 < 3) by lia.
  assert (Hd : game_dice (Game_init [fair; fair]) ≠ []) by discriminate.
  eexists. eexists. split; [exact Hn|]. split; [exact Hd|].
  split; [exact played_fair|].
  exact (play_table_shape (Game_init [fair; fair]) 3 rs0 _ _ Hn Hd played_fair).
Defined.

(** C4, where the code departs from the claim: a game never played,
    asked to [show('invalid')], answers [None] and raises nothing. *)
Theorem show_unplayed_invalid_form :
  Game_show (Game_init [fair; fair]) (PyStr "invalid") = Ok None.
Proof. apply Game_show_unplayed. Qed.



(** C6 fails as stated: a game without dice played three times has an
    empty table, and the counts sum to 0. *)
Lemma combo_count_no_dice :
  ∃ g' rs' combos perms,
    play (Game_init (@nil (Die Z))) 3 rs0 = Ok (g', rs')
    ∧ combo_count (mkAnalyzer g') = Ok (Some combos)
    ∧ permutation_count (mkAnalyzer g') = Ok (Some perms)
    ∧ count_sum combos = 0 ∧ count_sum perms = 0
    ∧ count_sum combos ≠ 3 ∧ count_sum perms ≠ 3.
Proof. do 4 eexists. repeat split; discriminate. Qed.

Lemma count_sums_witness :
  ∃ g' rs',
    play (Game_init [fair; fair]) 3 rs0 = Ok (g', rs')
    ∧ ∃ results perms combos,
        game_results g' = Some results
        ∧ Forall comparable (df_values results)
        ∧ permutation_count (mkAnalyzer g') = Ok (Some perms)
        ∧ count_sum perms = Z.of_nat (df_len results)
        ∧ combo_count (mkAnalyzer g') = Ok (Some combos)
        ∧ count_sum combos = Z.of_nat (df_len results)
        ∧ Z.of_nat (df_len results) = 3.
Proof.
  eexists. eexists. split; [exact played_fair|].
  destruct (count_sums (Game_init [fair; fair]) 3 rs0 _ _ played_fair)
    as (results & perms & H1 & H2 & H3 & H4 & H5 & _ & H7).
  assert (Hc : Forall comparable (df_values results)).
  { apply Forall_forall. intros row _. apply comparable_Z. }
  destruct (H5 Hc) as [combos H6].
  exists results, perms, combos.
  split; [exact H1|]. split; [exact Hc|]. split; [exact H2|].
  split; [exact H3|]. split; [exact H6|]. split; [exact (H4 combos H6)|].
  apply H7; [discriminate | lia].
Defined.

(** C7 fails as stated: a game of a die of numbers and a die of letters
    plays, and [permutation_count] has its two keys, but [combo_count] has
    none: sorting a roll compares a number with a string and raises
    [TypeError]. *)
Lemma combo_count_mixed_dice :
  ∃ g' rs' perms,
    Die_init (NdArray [SNum 1; SNum 2]) = Ok numbers
    ∧ Die_init (NdArray [SStr "a"; SStr "b"]) = Ok letters
    ∧ play (Game_init [numbers; letters]) 2 rs0 = Ok (g', rs')
    ∧ permutation_count (mkAnalyzer g') = Ok (Some perms)
    ∧ length perms = 2%nat
    ∧ combo_count (mkAnalyzer g') = Raise TypeError.
Proof.
  do 3 eexists. split; [reflexivity|]. split; [reflexivity|].
  split; [vm_compute; reflexivity|].
  split; [vm_compute; reflexivity|]. split; reflexivity.
Qed.

Lemma permutation_keys_ge_combo_keys_witness :
  ∃ results,
    game_results (analyzer_game (mkAnalyzer forced)) = Some results
    ∧ Forall comparable (df_values results)
    ∧ ∃ perms combos,
        permutation_count (mkAnalyzer forced) = Ok (Some perms)
        ∧ combo_count (mkAnalyzer forced) = Ok (Some combos)
        ∧ NoDup (fst <$> perms) ∧ NoDup (fst <$> combos)
        ∧ (length combos ≤ length perms)%nat.
Proof.
  eexists. split; [reflexivity|]. split; [exact forced_comparable|].
  destruct (permutation_keys_ge_combo_keys (mkAnalyzer forced) _ eq_refl)
    as (perms & H1 & H2 & H3 & H4 & _).
  destruct (H4 forced_comparable) as [combos H5].
  exists perms, combos. split; [exact H1|]. split; [exact H5|].
  split; [exact H2|]. exact (H3 combos H5).
Defined.

(** C8 fails as stated: the faces of [mixed] are distinct and its weights
    3 and -1 sum to 2, and [roll] raises [ValueError]. *)
Lemma roll_positive_sum_raises :
  NoDup (die_faces mixed) ∧ die_faces mixed ≠ []
  ∧ flt f_zero (py_sum (die_weights mixed)) = true
  ∧ float_is_Z (py_sum (die_weights mixed)) 2 = true
  ∧ roll mixed 1 rs0 = Raise ValueError.
Proof.
  split; [exact NoDup_12|]. split; [discriminate|].
  split; [vm_compute; reflexivity|]. split; vm_compute; reflexivity.
Qed.

(** Nor are weights that are all positive enough: those of [brimming] are
    10^308 each, their sum is infinite, the quotients are 0.0, and [roll]
    raises [ValueError]. *)
Lemma roll_brimming_raises :
  Forall (λ w, flt f_zero w = true ∧ f_isfinite w = true)
    (die_weights brimming)
  ∧ py_sum (die_weights brimming) = S754_infinity false
  ∧ roll brimming 1 rs0 = Raise ValueError.
Proof.
  split; [|split; vm_compute; reflexivity].
  repeat constructor; vm_compute; reflexivity.
Qed.

Lemma roll_returns_faces_witness :
  roll fair 5 rs0 = Ok ([1; 1; 2; 2; 1], advance rs0 5)
  ∧ (0 ≤ 5 ∧ Z.of_nat (length [1; 1; 2; 2; 1]) = 5
     ∧ Forall (λ x, x ∈ die_faces fair) [1; 1; 2; 2; 1])
  ∧ die_df fair ≠ []
  ∧ proper (normalised (die_weights fair)) = true
  ∧ np_empty_error 5 = None
  ∧ ∃ r rs', roll fair 5 rs0 = Ok (r, rs').
Proof.
  assert (H1 : roll fair 5 rs0 = Ok ([1; 1; 2; 2; 1], advance rs0 5))
    by (vm_compute; reflexivity).
  assert (H2 : die_df fair ≠ []) by discriminate.
  assert (H3 : proper (normalised (die_weights fair)) = true)
    by (vm_compute; reflexivity).
  assert (H4 : np_empty_error 5 = None) by reflexivity.
  split; [exact H1|].
  split; [exact (proj1 (roll_returns_faces fair 5 rs0) _ _ H1)|].
  split; [exact H2|]. split; [exact H3|]. split; [exact H4|].
  exact (proj2 (roll_returns_faces fair 5 rs0) H2 H3 H4).
Defined.


(** An integer from 2 ** 1024 on is no weight at all: [float] raises
    [OverflowError], which [change_weight] lets through. *)
Lemma change_weight_overflows :
  change_weight float_of_str fair 1 (PyInt (2 ^ 1024)) = Raise OverflowError.
Proof. vm_compute. reflexivity. Qed.


End Checks.

(** ** The further properties on the sample objects *)

Module MoreChecks.

Import Samples SampleFacts.

Lemma Die_init_fresh_witness :
  NoDup [1; 2; 3]
  ∧ ∃ die, Die_init (NdArray [1; 2; 3]) = Ok die
           ∧ die_faces die = [1; 2; 3]
           ∧ die_weights die = replicate (length [1; 2; 3]) f_one
           ∧ ∀ f, f ∈ [1; 2; 3] → loc_get (Die_show die) f = Some f_one.
Proof.
  split; [exact NoDup_123|]. exact (Die_init_fresh [1; 2; 3] NoDup_123).
Defined.

Lemma change_weight_overwrites_witness :
  ∃ die1,
    change_weight float_of_str fair 1 (PyInt 4) = Ok die1
    ∧ change_weight float_of_str die1 1 (PyStr "2.5")
      = change_weight float_of_str fair 1 (PyStr "2.5").
Proof.
  assert (H1 : change_weight float_of_str fair 1 (PyInt 4)
               = Ok (mkDie [(1, of_Z 4); (2, f_one)]))
    by (vm_compute; reflexivity).
  eexists. split; [exact H1|].
  exact (change_weight_overwrites float_of_str fair _ 1 (PyInt 4)
           (PyStr "2.5") H1).
Defined.

Lemma change_weight_commutes_witness :
  ∃ die1 die2,
    1 ≠ 2
    ∧ change_weight float_of_str fair 1 (PyInt 4) = Ok die1
    ∧ change_weight float_of_str fair 2 (PyStr "2.5") = Ok die2
    ∧ ∃ die', change_weight float_of_str die1 2 (PyStr "2.5") = Ok die'
              ∧ change_weight float_of_str die2 1 (PyInt 4) = Ok die'.
Proof.
  assert (Hne : 1 ≠ 2) by discriminate.
  assert (H1 : change_weight float_of_str fair 1 (PyInt 4)
               = Ok (mkDie [(1, of_Z 4); (2, f_one)]))
    by (vm_compute; reflexivity).
  assert (H2 : change_weight float_of_str fair 2 (PyStr "2.5")
               = Ok (mkDie [(1, f_one);
                            (2, S754_finite false 5629499534213120 (-51))]))
    by (vm_compute; reflexivity).
  eexists. eexists. split; [exact Hne|].
  split; [exact H1|]. split; [exact H2|].
  exact (change_weight_commutes float_of_str fair _ _ 1 2 (PyInt 4)
           (PyStr "2.5") Hne H1 H2).
Defined.

Lemma nonfinite_weight_unrollable_witness :
  py_float float_of_str (PyStr "inf") = Ok (S754_infinity false)
  ∧ f_isfinite (S754_infinity false) = false
  ∧ change_weight float_of_str fair 2 (PyStr "inf") = Ok boundless
  ∧ roll boundless 1 rs0 = Raise ValueError.
Proof.
  assert (H1 : py_float float_of_str (PyStr "inf") = Ok (S754_infinity false))
    by reflexivity.
  assert (H2 : f_isfinite (S754_infinity false) = false) by reflexivity.
  assert (H3 : change_weight float_of_str fair 2 (PyStr "inf") = Ok boundless)
    by (vm_compute; reflexivity).
  split; [exact H1|]. split; [exact H2|]. split; [exact H3|].
  exact (nonfinite_weight_unrollable float_of_str fair boundless 2
           (PyStr "inf") _ 1 rs0 H1 H2 H3).
Defined.

Lemma roll_then_roll_witness :
  roll fair 2 rs0 = Ok ([1; 1], advance rs0 2)
  ∧ roll fair 3 (advance rs0 2) = Ok ([2; 2; 1], advance rs0 5)
  ∧ np_empty_error (2 + 3) = None
  ∧ roll fair (2 + 3) rs0 = Ok ([1; 1] ++ [2; 2; 1], advance rs0 5)
  ∧ advance rs0 2 = advance rs0 (Z.to_nat 2)
  ∧ advance rs0 5 = advance rs0 (Z.to_nat (2 + 3)).
Proof.
  assert (H1 : roll fair 2 rs0 = Ok ([1; 1], advance rs0 2))
    by (vm_compute; reflexivity).
  assert (H2 : roll fair 3 (advance rs0 2) = Ok ([2; 2; 1], advance rs0 5))
    by (vm_compute; reflexivity).
  assert (H3 : np_empty_error (2 + 3) = None) by reflexivity.
  split; [exact H1|]. split; [exact H2|]. split; [exact H3|].
  exact (roll_then_roll fair 2 3 rs0 _ _ _ _ H1 H2 H3).
Defined.

(** The room is a condition of its own: on a machine with room for four
    samples the die rolls three times and three times more, but not six
    times at once. *)
Lemma roll_then_roll_without_room :
  @roll Z tiny_machine fair 3 rs0 = Ok ([1; 1; 2], advance rs0 3)
  ∧ @roll Z tiny_machine fair 3 (advance rs0 3) = Ok ([2; 1; 2], advance rs0 6)
  ∧ @roll Z tiny_machine fair (3 + 3) rs0 = Raise MemoryError.
Proof. repeat split; vm_compute; reflexivity. Qed.

Lemma roll_never_draws_zero_weight_witness :
  NoDup (die_faces loaded) ∧ (3, of_Z 0) ∈ die_df loaded
  ∧ f_iszero (of_Z 0) = true
  ∧ roll loaded 4 rs_high = Ok ([2; 2; 2; 2], advance rs_high 4)
  ∧ 3 ∉ [2; 2; 2; 2].
Proof.
  assert (H1 : (3, of_Z 0) ∈ die_df loaded).
  { do 2 apply list_elem_of_further. apply list_elem_of_here. }
  assert (H2 : f_iszero (of_Z 0) = true) by reflexivity.
  assert (H3 : roll loaded 4 rs_high = Ok ([2; 2; 2; 2], advance rs_high 4))
    by (vm_compute; reflexivity).
  split; [exact NoDup_loaded|]. split; [exact H1|]. split; [exact H2|].
  split; [exact H3|].
  exact (roll_never_draws_zero_weight loaded 4 rs_high _ _ 3 (of_Z 0)
           NoDup_loaded H1 H2 H3).
Defined.

Lemma roll_single_weight_witness :
  NoDup (die_faces loaded)
  ∧ (∀ (f' : Z) (w : float), (f', w) ∈ die_df loaded → f' ≠ 2 →
                             f_iszero w = true)
  ∧ roll loaded 4 rs0 = Ok ([2; 2; 2; 2], advance rs0 4)
  ∧ [2; 2; 2; 2] = replicate (Z.to_nat 4) 2.
Proof.
  assert (H3 : roll loaded 4 rs0 = Ok ([2; 2; 2; 2], advance rs0 4))
    by (vm_compute; reflexivity).
  split; [exact NoDup_loaded|]. split; [exact loaded_others|].
  split; [exact H3|].
  exact (roll_single_weight loaded 4 rs0 _ _ 2 NoDup_loaded loaded_others H3).
Defined.


Lemma play_draws_in_order_witness :
  ∃ g',
    play (Game_init [fair; fair]) 3 rs0 = Ok (g', advance rs0 6)
    ∧ advance rs0 6
      = advance rs0 (Z.to_nat 3 * length (game_dice (Game_init [fair; fair])))
    ∧ ∀ (i t : nat) die,
        (i < Z.to_nat 3)%nat →
        game_dice (Game_init [fair; fair]) !! t = Some die →
        ∃ results row x,
          game_results g' = Some results
          ∧ df_values results !! i = Some row ∧ row !! t = Some (Some x)
          ∧ roll die 1
              (advance rs0
                 (i * length (game_dice (Game_init [fair; fair])) + t))
            = Ok ([x],
                  advance rs0
                    (S (i * length (game_dice (Game_init [fair; fair])) + t))).
Proof.
  eexists. split; [exact played_fair|].
  exact (play_draws_in_order (Game_init [fair; fair]) 3 rs0 _ _ played_fair).
Defined.


(** Without the condition on NaN the narrow form is shorter than the wide
    one: the two rolls of [holed] show NaN, and [stack] drops them. *)
Lemma show_narrow_drops_nan :
  ∃ g' rs' wide narrow,
    play (Game_init [holed]) 2 rs_high = Ok (g', rs')
    ∧ Game_show g' (PyStr "wide") = Ok (Some wide)
    ∧ Game_show g' (PyStr "narrow") = Ok (Some narrow)
    ∧ df_len wide = 2%nat ∧ df_width wide = 1%nat ∧ df_len narrow = 0%nat.
Proof.
  do 4 eexists. split; [vm_compute; reflexivity|].
  split; [reflexivity|]. split; [reflexivity|]. by repeat split.
Qed.


Lemma jackpot_after_play_witness :
  ∃ g',
    play (Game_init [three]) 4 rs0 = Ok (g', advance rs0 4)
    ∧ length (game_dice (Game_init [three])) = 1%nat
    ∧ nan_free (game_dice (Game_init [three]))
    ∧ ∃ j, jackpot (mkAnalyzer g') = Ok j
           ∧ 0 ≤ j ≤ Z.max 0 4
           ∧ j = Z.max 0 4.
Proof.
  eexists. split; [exact played_three|]. split; [reflexivity|].
  split; [exact nan_free_three|].
  destruct (jackpot_after_play (Game_init [three]) 4 rs0 _ _ played_three)
    as (j & H1 & H2 & H3).
  exists j. split; [exact H1|]. split; [exact H2|].
  exact (H3 eq_refl nan_free_three).
Defined.

(** Without the condition on NaN a single die does not make every roll a
    jackpot: the two rolls of [holed] show NaN, and [nunique] counts no
    value in them. *)
Lemma jackpot_single_nan_die :
  ∃ g' rs',
    play (Game_init [holed]) 2 rs_high = Ok (g', rs')
    ∧ jackpot (mkAnalyzer g') = Ok 0.
Proof. do 2 eexists. split; vm_compute; reflexivity. Qed.






Lemma zero_weight_after_change_witness :
  ∃ die' r rs',
    NoDup (die_faces three)
    ∧ py_float float_of_str (PyInt 0) = Ok (of_Z 0)
    ∧ f_iszero (of_Z 0) = true
    ∧ change_weight float_of_str three 3 (PyInt 0) = Ok die'
    ∧ roll die' 4 rs0 = Ok (r, rs')
    ∧ 3 ∉ r.
Proof.
  assert (H2 : py_float float_of_str (PyInt 0) = Ok (of_Z 0))
    by reflexivity.
  assert (H3 : f_iszero (of_Z 0) = true) by reflexivity.
  assert (H4 : change_weight float_of_str three 3 (PyInt 0)
               = Ok (mkDie [(1, f_one); (2, f_one); (3, of_Z 0)]))
    by (vm_compute; reflexivity).
  assert (H5 : roll (mkDie [(1, f_one); (2, f_one); (3, of_Z 0)]) 4 rs0
               = Ok ([1; 1; 2; 2], advance rs0 4))
    by (vm_compute; reflexivity).
  eexists. eexists. eexists. split; [exact NoDup_123|]. split; [exact H2|].
  split; [exact H3|]. split; [exact H4|]. split; [exact H5|].
  exact (zero_weight_after_change float_of_str three _ 3 (PyInt 0) _ 4 rs0 _ _
           NoDup_123 H2 H3 H4 H5).
Defined.

Lemma fresh_die_rolls_witness :
  ∃ die,
    Die_init (NdArray [1; 2; 3]) = Ok die ∧ [1; 2; 3] ≠ []
    ∧ (length [1; 2; 3] ≤ 100)%nat ∧ np_empty_error 4 = None
    ∧ ∃ r rs', roll die 4 rs0 = Ok (r, rs')
               ∧ Z.of_nat (length r) = 4 ∧ Forall (λ x, x ∈ [1; 2; 3]) r.
Proof.
  assert (H1 : Die_init (NdArray [1; 2; 3]) = Ok three) by reflexivity.
  assert (H2 : [1; 2; 3] ≠ @nil Z) by discriminate.
  assert (H3 : (length [1; 2; 3] ≤ 100)%nat) by (cbn [length]; lia).
  assert (H4 : np_empty_error 4 = None) by reflexivity.
  eexists. split; [exact H1|]. split; [exact H2|]. split; [exact H3|].
  split; [exact H4|].
  exact (fresh_die_rolls [1; 2; 3] three 4 rs0 H1 H2 H3 H4).
Defined.

(** The room is a condition of its own: the sample machine has none for
    2 ** 21 samples, and no machine has any for 2 ** 63. *)
Lemma roll_without_room :
  roll three (2 ^ 21) rs0 = Raise MemoryError
  ∧ ∃ e, np_empty_error (2 ^ 63) = Some e.
Proof. split; [vm_compute; reflexivity|]. apply np_empty_intp. lia. Qed.

Lemma play_replaces_table_witness :
  ∃ g1,
    play (Game_init [fair; fair]) 3 rs0 = Ok (g1, advance rs0 6)
    ∧ game_dice g1 = game_dice (Game_init [fair; fair])
    ∧ play g1 2 (advance rs0 6) = play (Game_init [fair; fair]) 2 (advance rs0 6).
Proof.
  eexists. split; [exact played_fair|].
  exact (play_replaces_table (Game_init [fair; fair]) 3 2 rs0 _ _ played_fair).
Defined.


End MoreChecks.
